(** * reload: self-restarting processes, debounced on file-system events

    A shallow embedding of [reload.go].  The package keeps three
    process-wide variables ([binSelf], [closeWatcher], [OnExec]), builds a
    map from watched path to a stopped [*time.Timer], starts one goroutine
    that turns fsnotify events into timer resets, and offers [Exec], which
    replaces the process image.

    What the package imports (the operating system, [path/filepath],
    fsnotify's watcher, the runtime's timers) is not part of the source.
    The operating system and the watcher are taken as a record of oracles,
    [world]; the timers are modelled after the documented behaviour of
    [time.AfterFunc], [Timer.Stop] and [Timer.Reset]. *)

From Stdlib Require Import ZArith List String Ascii Bool Lia.
From stdpp Require Import gmap strings.
Import ListNotations.

Local Open Scope Z_scope.
Local Set Warnings "-register-all".

(** ** Errors and formatted messages *)

(** An [error] is either one handed back by a collaborator or one built by
    [fmt.Errorf]; the format string is kept as written in the source, next
    to its operands, instead of being rendered.  An operand is a string,
    an error, or a string that [fmt.Sprintf] made. *)
Inductive error : Type :=
| ErrExternal (msg : string)
| Errorf (format : string) (args : list fmt_arg)
with fmt_arg : Type :=
| ArgString (s : string)
| ArgError (e : error)
| ArgSprintf (format : string) (args : list fmt_arg).

(** [fmt.Sprintf], and the (format, args...) pairs handed to [log]. *)
Record formatted : Type := Sprintf { fmt_format : string; fmt_args : list fmt_arg }.

Inductive result (A : Type) : Type :=
| Ok (a : A)
| Err (e : error).
Arguments Ok {A} a.
Arguments Err {A} e.

(** ** The collaborators *)

Record FileInfo : Type := { IsDir : bool }.

Record world : Type := {
  os_Args : list string;
  os_Environ : list string;
  os_Executable : result string;
  os_Getwd : result string;
  os_Stat : string -> result FileInfo;
  filepath_IsAbs : string -> bool;
  filepath_Abs : string -> result string;
  filepath_Dir : string -> string;
  fsnotify_NewWatcher : option error;
  watcher_Add : string -> option error;
  watcher_Close : option error;
  (** [None]: the image was replaced, the call does not come back. *)
  syscall_Exec : string -> list string -> list string -> option error
}.

(** ** Functions as values *)

(** A [func()] held by the package is [Exec] itself or a function of the
    caller, of which only the identity is known. *)
Inductive func : Type :=
| FExec
| FUser (tag : nat).

Inductive closer : Type := WatcherClose.

Record dir : Type := Dir { path : string; cb : func }.

(** ** fsnotify events *)

(** [fsnotify.Op] is a bit mask over a [uint32]. *)
Definition Op : Type := Z.
Definition fsnotify_Create : Op := Z.shiftl 1 0.
Definition fsnotify_Write : Op := Z.shiftl 1 1.
Definition fsnotify_Remove : Op := Z.shiftl 1 2.
Definition fsnotify_Rename : Op := Z.shiftl 1 3.
Definition fsnotify_Chmod : Op := Z.shiftl 1 4.

Record Event : Type := { Name : string; EvOp : Op }.

(** [func (o Op) Has(h Op) bool { return o&h != 0 }]; releases of
    fsnotify that compare [o&h] with [h] give the same answer for the
    single bits used here ([Op_Has_bit]). *)
Definition Op_Has (o h : Op) : bool := negb (Z.land o h =? 0).
Definition Event_Has (e : Event) (op : Op) : bool := Op_Has (EvOp e) op.

(** ** Process state *)

Inductive panic_value : Type :=
| PanicString (msg : formatted)
| PanicRuntime (msg : string).

(** What a run leaves behind, in the order it happened. *)
Inductive effect : Type :=
| ENewWatcher
| EWatcherAdd (d : string) (r : option error)
| EWatcherClose (r : option error)
| ECall (tag : nat)
| ESyscallExec (argv0 : string) (argv envv : list string)
| ELog (msg : formatted)
| EGo.

Inductive goroutine_status : Type := Running | Exited | Crashed (p : panic_value).

(** The closure of the goroutine started by [Do]: it captures [timers] and
    [additional]; [binSelf] is the package variable and is read again at
    every event. *)
Record goroutine : Type := {
  g_timers : gmap string nat;
  g_additional : list dir;
  g_status : goroutine_status
}.

(** An unbuffered channel: what senders have offered, and whether it was
    closed. *)
Record chan : Type := { ch_offered : list bool; ch_closed : bool }.

(** The runtime's timers.  Time is the monotonic clock in nanoseconds
    ([int64]).  A timer is known by the index of its function in
    [timer_f]; [pending] holds one entry per armed timer with the instant
    it is due, and [fired] records, in order, which timer ran its function
    and at which instant. *)
Record runtime : Type := {
  now : Z;
  timer_f : list func;
  pending : list (nat * Z);
  fired : list (nat * Z)
}.

Record state : Type := {
  binSelf : string;
  closeWatcher : option closer;
  OnExec : option nat;
  rt : runtime;
  (* the goroutine of Do and the channel Do waits on *)
  loop : option goroutine;
  done : option chan;
  trace : list effect
}.

Definition initial_state : state :=
  {| binSelf := EmptyString; closeWatcher := None; OnExec := None;
     rt := {| now := 0; timer_f := []; pending := []; fired := [] |};
     loop := None; done := None; trace := [] |}.

Definition with_binSelf (s : string) (st : state) : state :=
  {| binSelf := s; closeWatcher := closeWatcher st; OnExec := OnExec st;
     rt := rt st; loop := loop st; done := done st; trace := trace st |}.

Definition with_closeWatcher (c : option closer) (st : state) : state :=
  {| binSelf := binSelf st; closeWatcher := c; OnExec := OnExec st;
     rt := rt st; loop := loop st; done := done st; trace := trace st |}.

Definition with_rt (r : runtime) (st : state) : state :=
  {| binSelf := binSelf st; closeWatcher := closeWatcher st; OnExec := OnExec st;
     rt := r; loop := loop st; done := done st; trace := trace st |}.

Definition with_loop (g : option goroutine) (st : state) : state :=
  {| binSelf := binSelf st; closeWatcher := closeWatcher st; OnExec := OnExec st;
     rt := rt st; loop := g; done := done st; trace := trace st |}.

Definition with_done (c : option chan) (st : state) : state :=
  {| binSelf := binSelf st; closeWatcher := closeWatcher st; OnExec := OnExec st;
     rt := rt st; loop := loop st; done := c; trace := trace st |}.

Definition with_trace (t : list effect) (st : state) : state :=
  {| binSelf := binSelf st; closeWatcher := closeWatcher st; OnExec := OnExec st;
     rt := rt st; loop := loop st; done := done st; trace := t |}.

(** ** The monad of the package's functions *)

Inductive outcome (A : Type) : Type :=
| Ret (a : A)
| Panicked (p : panic_value)
| Replaced
| Blocked.
Arguments Ret {A} a.
Arguments Panicked {A} p.
Arguments Replaced {A}.
Arguments Blocked {A}.

Definition M (A : Type) : Type := state -> outcome A * state.

Definition ret {A} (a : A) : M A := fun st => (Ret a, st).

Definition bind {A B} (m : M A) (k : A -> M B) : M B :=
  fun st =>
    match m st with
    | (Ret a, st') => k a st'
    | (Panicked p, st') => (Panicked p, st')
    | (Replaced, st') => (Replaced, st')
    | (Blocked, st') => (Blocked, st')
    end.

Notation "'do' x <- m >> k" := (bind m (fun x => k))
  (at level 10, x name, m at level 100, k at level 200).
Notation "'run' m >> k" := (bind m (fun _ => k))
  (at level 10, m at level 100, k at level 200).

Definition panic {A} (p : panic_value) : M A := fun st => (Panicked p, st).
Definition gets {A} (f : state -> A) : M A := fun st => (Ret (f st), st).
Definition modify (f : state -> state) : M unit := fun st => (Ret tt, f st).
Definition emit (e : effect) : M unit :=
  modify (fun st => with_trace (trace st ++ [e]) st).

(** ** Strings *)

(** [strings.HasPrefix]:
    [len(s) >= len(prefix) && s[:len(prefix)] == prefix]. *)
Definition HasPrefix (s prefix : string) : bool :=
  (String.length prefix <=? String.length s)%nat
  && String.eqb (substring 0 (String.length prefix) s) prefix.

(** [strings.TrimLeft(s, "/")]. *)
Fixpoint TrimLeft_slash (s : string) : string :=
  match s with
  | String c s' => if Ascii.eqb c "/" then TrimLeft_slash s' else s
  | EmptyString => s
  end.

(** [strings.Join]. *)
Fixpoint Join (elems : list string) (sep : string) : string :=
  match elems with
  | [] => EmptyString
  | [x] => x
  | x :: rest => x ++ sep ++ Join rest sep
  end.

(** ** Timers *)

Definition MaxInt64 : Z := 2 ^ 63 - 1.
Definition Millisecond : Z := 1000000.

Definition wrap_int64 (z : Z) : Z := (z + 2 ^ 63) mod 2 ^ 64 - 2 ^ 63.

(** The runtime's [when]: the instant [d] from now; an overflow of the sum
    gives [MaxInt64]. *)
Definition when (t d : Z) : Z :=
  if d <=? 0 then t
  else
    let t' := wrap_int64 (t + d) in
    if t' <? 0 then MaxInt64 else t'.

Definition modify_rt (f : runtime -> runtime) : M unit :=
  modify (fun st => with_rt (f (rt st)) st).

(** Take the first entry of timer [t] out of the pending ones. *)
Fixpoint unschedule (t : nat) (l : list (nat * Z)) : list (nat * Z) :=
  match l with
  | [] => []
  | e :: l' => if Nat.eqb (fst e) t then l' else e :: unschedule t l'
  end.

Definition is_pending (t : nat) (l : list (nat * Z)) : bool :=
  existsb (fun e => Nat.eqb (fst e) t) l.

(** [time.AfterFunc(d, f)]: a new timer, armed. *)
Definition AfterFunc (d : Z) (f : func) : M nat :=
  do r <- gets rt >>
  let t := length (timer_f r) in
  run modify_rt (fun r =>
        {| now := now r; timer_f := timer_f r ++ [f];
           pending := pending r ++ [(t, when (now r) d)]; fired := fired r |}) >>
  ret t.

(** [t.Stop()]: reports whether the call stopped the timer. *)
Definition Timer_Stop (t : nat) : M bool :=
  do r <- gets rt >>
  run modify_rt (fun r =>
        {| now := now r; timer_f := timer_f r;
           pending := unschedule t (pending r); fired := fired r |}) >>
  ret (is_pending t (pending r)).

(** [t.Reset(d)]: for a timer made by [AfterFunc], reschedules when its
    function runs, or schedules it to run again. *)
Definition Timer_Reset (t : nat) (d : Z) : M bool :=
  do active <- Timer_Stop t >>
  run modify_rt (fun r =>
        {| now := now r; timer_f := timer_f r;
           pending := pending r ++ [(t, when (now r) d)]; fired := fired r |}) >>
  ret active.

Definition stoppedTimer (cb : func) : M nat :=
  do t <- AfterFunc MaxInt64 cb >>
  run Timer_Stop t >>
  ret t.

(** The clock reaches [T]: every pending timer that is due runs its
    function (each on a goroutine of its own, so only the fact is
    recorded). *)
Definition is_due (T : Z) (e : nat * Z) : bool := snd e <=? T.

Definition advance_rt (T : Z) (r : runtime) : runtime :=
  {| now := Z.max (now r) T;
     timer_f := timer_f r;
     pending := List.filter (fun e => negb (is_due T e)) (pending r);
     fired := fired r ++ List.filter (is_due T) (pending r) |}.

Definition advance (T : Z) (st : state) : state := with_rt (advance_rt T (rt st)) st.

(** [timers[key].Reset(100 * time.Millisecond)]; a key that is not in the
    map gives a nil [*time.Timer]. *)
Definition timers_Reset (timers : gmap string nat) (key : string) : M unit :=
  match timers !! key with
  | None => panic (PanicRuntime "invalid memory address or nil pointer dereference")
  | Some t => run Timer_Reset t (100 * Millisecond) >> ret tt
  end.

(** ** The goroutine of [Do] *)

(** The goroutine is run one [select] at a time, on the items it receives
    and at the instants it receives them; which of two ready channels the
    [select] takes is then part of the input.  [Do] itself runs up to
    [<-done] first: the goroutine has nothing to receive before the
    directories are added, and the only thing [Do] does after that is its
    one line of log. *)

(** What one round of the [select] receives. *)
Inductive item : Type :=
| ErrorsRecv (err : error)
| ErrorsClosed
| EventsRecv (event : Event)
| EventsClosed.

Inductive flow : Type := Continue | Return.

Fixpoint range_additional (event : Event) (timers : gmap string nat)
    (additional : list dir) : M unit :=
  match additional with
  | [] => ret tt
  | a :: rest =>
      run (if HasPrefix (Name event) (path a)
           then timers_Reset timers (path a)
           else ret tt) >>
      range_additional event timers rest
  end.

Definition on_event (timers : gmap string nat) (additional : list dir)
    (event : Event) : M unit :=
  let trigger := Event_Has event fsnotify_Write || Event_Has event fsnotify_Create in
  if negb trigger then ret tt
  else
    do self_ <- gets binSelf >>
    run (if String.eqb (Name event) self_
         then timers_Reset timers self_
         else ret tt) >>
    range_additional event timers additional.

Definition loop_body (timers : gmap string nat) (additional : list dir)
    (it : item) : M flow :=
  match it with
  | ErrorsClosed => ret Return
  | ErrorsRecv err =>
      run emit (ELog (Sprintf "reload error: %v" [ArgError err])) >> ret Continue
  | EventsClosed => ret Return
  | EventsRecv event => run on_event timers additional event >> ret Continue
  end.

Definition with_status (s : goroutine_status) (g : goroutine) : goroutine :=
  {| g_timers := g_timers g; g_additional := g_additional g; g_status := s |}.

(** The goroutine takes one item, if it is there and still in its loop. *)
Definition goroutine_step (it : item) (st : state) : state :=
  match loop st with
  | Some g =>
      match g_status g with
      | Running =>
          match loop_body (g_timers g) (g_additional g) it st with
          | (Ret Continue, st') => st'
          | (Ret Return, st') => with_loop (Some (with_status Exited g)) st'
          | (Panicked p, st') => with_loop (Some (with_status (Crashed p) g)) st'
          | (_, st') => st'
          end
      | _ => st
      end
  | None => st
  end.

(** An item received at instant [t]: timers due by then have run. *)
Definition deliver (st : state) (ti : Z * item) : state :=
  goroutine_step (snd ti) (advance (fst ti) st).

Definition run_items (items : list (Z * item)) (st : state) : state :=
  fold_left deliver items st.

Section Reload.

Variable w : world.

(** ** [self]: location of the executable *)

Definition self : M (string * option error) :=
  match os_Args w with
  | [] => panic (PanicRuntime "index out of range [0] with length 0")
  | bin :: _ =>
      if negb (filepath_IsAbs w bin) then
        match os_Executable w with
        | Err err =>
            ret (EmptyString,
                 Some (Errorf "cannot get path to binary %q (launch with absolute path): %w"
                              [ArgString bin; ArgError err]))
        | Ok bin' => ret (bin', None)
        end
      else ret (bin, None)
  end.

(** ** [Exec]: replace the process with a new copy of itself *)

(** [syscall.Exec]: comes back only with an error. *)
Definition do_syscall_Exec (argv0 : string) (argv envv : list string) : M (option error) :=
  run emit (ESyscallExec argv0 argv envv) >>
  match syscall_Exec w argv0 argv envv with
  | None => fun st => (Replaced, st)
  | Some err => ret (Some err)
  end.

(** [os.Args[1:]] *)
Definition Args_from_1 : M (list string) :=
  match os_Args w with
  | [] => panic (PanicRuntime "slice bounds out of range [1:0]")
  | _ :: rest => ret rest
  end.

Definition call_closer (c : closer) : M (option error) :=
  match c with
  | WatcherClose =>
      run emit (EWatcherClose (watcher_Close w)) >> ret (watcher_Close w)
  end.

Definition Exec : M unit :=
  do execName <- gets binSelf >>
  do execName <-
    (if String.eqb execName EmptyString then
       do r <- self >>
       match snd r with
       | Some err =>
           panic (PanicString (Sprintf "cannot restart: cannot find self: %v" [ArgError err]))
       | None => ret (fst r)
       end
     else ret execName) >>
  do close <- gets closeWatcher >>
  run match close with
      | Some c => run call_closer c >> ret tt
      | None => ret tt
      end >>
  do hook <- gets OnExec >>
  run match hook with
      | Some h => emit (ECall h)
      | None => ret tt
      end >>
  do rest <- Args_from_1 >>
  do err <- do_syscall_Exec execName ([execName] ++ rest) (os_Environ w) >>
  match err with
  | Some err => panic (PanicString (Sprintf "cannot restart: %v" [ArgError err]))
  | None => ret tt
  end.

(** ** [relpath]: path relative to the working directory *)

Definition relpath (p : string) : string :=
  match os_Getwd w with
  | Err _ => p
  | Ok cwd =>
      if HasPrefix p cwd
      then "./" ++ TrimLeft_slash (substring (String.length cwd)
                                     (String.length p - String.length cwd) p)
      else p
  end.

(** ** [Do]: reload the current process when its binary changes *)

(** The loop over [additional] (checks, then [additional[i].path = path],
    [dirs[i+1] = path] and [timers[path] = stoppedTimer(a.cb)]).  It gives
    back the error it stopped at, or the slice with its paths made
    absolute and the map; [dirs[1:]] is the paths of that slice. *)
Fixpoint range_setup (additional : list dir) (timers : gmap string nat)
    : M (result (list dir * gmap string nat)) :=
  match additional with
  | [] => ret (Ok ([], timers))
  | a :: rest =>
      match filepath_Abs w (path a) with
      | Err err =>
          ret (Err (Errorf "reload.Do: cannot get absolute path to %q: %w"
                           [ArgString (path a); ArgError err]))
      | Ok path' =>
          match os_Stat w path' with
          | Err err => ret (Err (Errorf "reload.Do: %w" [ArgError err]))
          | Ok s =>
              if negb (IsDir s) then
                ret (Err (Errorf "reload.Do: not a directory: %q; can only watch directories"
                                 [ArgString (path a)]))
              else
                do t <- stoppedTimer (cb a) >>
                do r <- range_setup rest (<[path' := t]> timers) >>
                match r with
                | Err err => ret (Err err)
                | Ok (additional', timers') =>
                    ret (Ok (Dir path' (cb a) :: additional', timers'))
                end
          end
      end
  end.

(** [for _, d := range dirs { if err := watcher.Add(d); ... }] *)
Fixpoint range_Add (dirs : list string) : M (option error) :=
  match dirs with
  | [] => ret None
  | d :: rest =>
      run emit (EWatcherAdd d (watcher_Add w d)) >>
      match watcher_Add w d with
      | Some err =>
          ret (Some (Errorf "reload.Do: cannot add %q to watcher: %w"
                            [ArgString d; ArgError err]))
      | None => range_Add rest
      end
  end.

(** [go func() { ... }()] *)
Definition go (timers : gmap string nat) (additional : list dir) : M unit :=
  run emit EGo >>
  modify (with_loop (Some {| g_timers := timers; g_additional := additional;
                             g_status := Running |})).

(** [<-done]: a value that was offered, the zero value once the channel is
    closed, and no progress otherwise. *)
Definition recv_done : M bool :=
  fun st =>
    match done st with
    | Some c =>
        match ch_offered c with
        | v :: rest =>
            (Ret v, with_done (Some {| ch_offered := rest; ch_closed := ch_closed c |}) st)
        | [] => if ch_closed c then (Ret false, st) else (Blocked, st)
        end
    | None => (Blocked, st)
    end.

(** The last two statements of [Do]; also what [Do] does whenever it is
    scheduled again after blocking there. *)
Definition Do_wait : M (option error) :=
  run recv_done >> ret None.

Definition Do (additional : list dir) : M (option error) :=
  run emit ENewWatcher >>
  match fsnotify_NewWatcher w with
  | Some err =>
      ret (Some (Errorf "reload.Do: cannot setup watcher: %w" [ArgError err]))
  | None =>
      run modify (with_closeWatcher (Some WatcherClose)) >>
      let timers : gmap string nat := ∅ in
      do r <- self >>
      run modify (with_binSelf (fst r)) >>
      match snd r with
      | Some err => ret (Some err)
      | None =>
          do t <- stoppedTimer FExec >>
          do self_ <- gets binSelf >>
          let timers := <[self_ := t]> timers in
          let dirs0 := filepath_Dir w self_ in
          do r <- range_setup additional timers >>
          match r with
          | Err err => ret (Some err)
          | Ok (additional', timers) =>
              let dirs := dirs0 :: map path additional' in
              run modify (with_done (Some {| ch_offered := []; ch_closed := false |})) >>
              run go timers additional' >>
              do err <- range_Add dirs >>
              match err with
              | Some err => ret (Some err)
              | None =>
                  let add :=
                    if (0 <? length additional')%nat
                    then ArgSprintf " (additional dirs: %s)"
                           [ArgString (Join (map relpath (tail dirs)) ", ")]
                    else ArgString EmptyString
                  in
                  do self_ <- gets binSelf >>
                  run emit (ELog (Sprintf "restarting %q when it changes%s"
                                    [ArgString (relpath self_); add])) >>
                  Do_wait
              end
          end
      end
  end.

End Reload.

(** * Vocabulary of the statements *)

(** The path [Exec] restarts: the cached one, or the one [self] finds when
    nothing is cached. *)
Inductive exec_name (w : world) (st : state) : string -> Prop :=
| exec_name_cached :
    binSelf st <> EmptyString -> exec_name w st (binSelf st)
| exec_name_fresh (name : string) :
    binSelf st = EmptyString ->
    fst (self w st) = Ret (name, None) ->
    exec_name w st name.

Definition close_step (w : world) (st : state) : list effect :=
  match closeWatcher st with
  | Some _ => [EWatcherClose (watcher_Close w)]
  | None => []
  end.

Definition hook_step (st : state) : list effect :=
  match OnExec st with
  | Some h => [ECall h]
  | None => []
  end.

(** The calls of [syscall.Exec] in a trace. *)
Fixpoint exec_calls (tr : list effect) : list (string * list string * list string) :=
  match tr with
  | [] => []
  | ESyscallExec argv0 argv envv :: tr' => (argv0, argv, envv) :: exec_calls tr'
  | _ :: tr' => exec_calls tr'
  end.

(** How [Exec] fails, and with which message. *)
Inductive Exec_failure (w : world) (st : state) : formatted -> Prop :=
| Exec_failure_self (s : string) (err : error) :
    binSelf st = EmptyString ->
    fst (self w st) = Ret (s, Some err) ->
    Exec_failure w st (Sprintf "cannot restart: cannot find self: %v" [ArgError err])
| Exec_failure_image (name a0 : string) (rest : list string) (err : error) :
    exec_name w st name ->
    os_Args w = a0 :: rest ->
    syscall_Exec w name (name :: rest) (os_Environ w) = Some err ->
    Exec_failure w st (Sprintf "cannot restart: %v" [ArgError err]).

(** The debounce delay of the source, [100 * time.Millisecond]. *)
Definition delay : Z := 100 * Millisecond.

(** [trigger] of the goroutine. *)
Definition trigger (event : Event) : bool :=
  Event_Has event fsnotify_Write || Event_Has event fsnotify_Create.

(** What [t.Reset(d)] does to the runtime. *)
Definition reset_rt (d : Z) (r : runtime) (t : nat) : runtime :=
  {| now := now r; timer_f := timer_f r;
     pending := unschedule t (pending r) ++ [(t, when (now r) d)];
     fired := fired r |}.

Definition resets (ids : list nat) (r : runtime) : runtime :=
  fold_left (reset_rt delay) ids r.

(** The keys whose timers one event resets, in the order of the source:
    [binSelf] first, then the directories in the order of [additional]. *)
Definition matched_keys (self_ : string) (additional : list dir) (event : Event)
    : list string :=
  (if String.eqb (Name event) self_ then [self_] else [])
  ++ map path (List.filter (fun a => HasPrefix (Name event) (path a)) additional).

Definition event_ids (self_ : string) (timers : gmap string nat)
    (additional : list dir) (event : Event) : list nat :=
  if trigger event
  then omap (fun k => timers !! k) (matched_keys self_ additional event)
  else [].

(** What the goroutine captured, and where it stands. *)
Definition closure (st : state) : option (gmap string nat * list dir) :=
  match loop st with
  | Some g => Some (g_timers g, g_additional g)
  | None => None
  end.

Definition status (st : state) : option goroutine_status :=
  match loop st with
  | Some g => Some (g_status g)
  | None => None
  end.

(** What the running goroutine does with one item. *)
Definition step_result (timers : gmap string nat) (additional : list dir)
    (it : item) (st : state) : state :=
  match it with
  | ErrorsRecv err =>
      with_trace (trace st ++ [ELog (Sprintf "reload error: %v" [ArgError err])]) st
  | ErrorsClosed | EventsClosed =>
      with_loop (Some {| g_timers := timers; g_additional := additional;
                         g_status := Exited |}) st
  | EventsRecv event =>
      with_rt (resets (event_ids (binSelf st) timers additional event) (rt st)) st
  end.

(** Every key the goroutine can look up has a timer. *)
Record loop_ok (timers : gmap string nat) (additional : list dir) (st : state)
    : Prop := {
  ok_closure : closure st = Some (timers, additional);
  ok_self : is_Some (timers !! binSelf st);
  ok_additional : Forall (fun a => is_Some (timers !! path a)) additional;
  ok_status : status st = Some Running \/ status st = Some Exited
}.

(** The pending entries, and the recorded runs, of one timer. *)
Definition of_timer (t : nat) (l : list (nat * Z)) : list (nat * Z) :=
  List.filter (fun e => Nat.eqb (fst e) t) l.


Definition fires (t : nat) (st : state) : list Z :=
  map snd (of_timer t (fired (rt st))).

(** An event that resets the timer of the watched path [p]: it is a write
    or a create, and its name is the executable's when [p] is, or begins
    with [p] when [p] is one of the additional directories. *)
Definition on_path (self_ : string) (additional : list dir) (p : string)
    (event : Event) : Prop :=
  trigger event = true /\
  ((p = self_ /\ Name event = self_) \/
   (Exists (fun a => path a = p) additional /\ HasPrefix (Name event) p = true)).

(** Instants that follow each other by less than the delay. *)
Fixpoint close_together (prev : Z) (times : list Z) : Prop :=
  match times with
  | [] => True
  | t :: rest => prev <= t < prev + delay /\ close_together t rest
  end.

Definition events_at (burst : list (Z * Event)) : list (Z * item) :=
  map (fun te => (fst te, EventsRecv (snd te))) burst.

(** An entry of [additional] that [Do] accepts, with its absolute path. *)
Definition watchable (w : world) (a : dir) (p : string) : Prop :=
  filepath_Abs w (path a) = Ok p /\
  exists s, os_Stat w p = Ok s /\ IsDir s = true.

(** The errors [Do] gives for an entry of [additional]. *)
Inductive ConfigurationError (w : world) (a : dir) : error -> Prop :=
| ConfigurationError_abs (err : error) :
    filepath_Abs w (path a) = Err err ->
    ConfigurationError w a
      (Errorf "reload.Do: cannot get absolute path to %q: %w"
              [ArgString (path a); ArgError err])
| ConfigurationError_stat (p : string) (err : error) :
    filepath_Abs w (path a) = Ok p ->
    os_Stat w p = Err err ->
    ConfigurationError w a (Errorf "reload.Do: %w" [ArgError err])
| ConfigurationError_not_dir (p : string) (s : FileInfo) :
    filepath_Abs w (path a) = Ok p ->
    os_Stat w p = Ok s ->
    IsDir s = false ->
    ConfigurationError w a
      (Errorf "reload.Do: not a directory: %q; can only watch directories"
              [ArgString (path a)]).

(** Pending entries belong to timers that exist. *)
Definition rt_wf (r : runtime) : Prop :=
  Forall (fun e => (fst e < length (timer_f r))%nat) (pending r).

(** New timers were made and none of them was left armed. *)
Definition quiet (r r' : runtime) : Prop :=
  now r' = now r /\ fired r' = fired r
  /\ (rt_wf r -> pending r' = pending r /\ rt_wf r').

(** How a call of [Do] ends, and in which state. *)
Definition accepted (w : world) (a a' : dir) : Prop :=
  watchable w a (path a') /\ cb a' = cb a.

Definition fresh_chan : chan := {| ch_offered := []; ch_closed := false |}.

Inductive Do_case (w : world) (additional : list dir) (st : state)
    : outcome (option error) -> state -> Prop :=
| Do_no_watcher (err : error) :
    fsnotify_NewWatcher w = Some err ->
    Do_case w additional st
      (Ret (Some (Errorf "reload.Do: cannot setup watcher: %w" [ArgError err])))
      (with_trace (trace st ++ [ENewWatcher]) st)
| Do_self_panic (p : panic_value) (st' : state) :
    fsnotify_NewWatcher w = None ->
    fst (self w st) = Panicked p ->
    trace st' = trace st ++ [ENewWatcher] ->
    loop st' = loop st ->
    Do_case w additional st (Panicked p) st'
| Do_self_error (s : string) (err : error) (st' : state) :
    fsnotify_NewWatcher w = None ->
    fst (self w st) = Ret (s, Some err) ->
    trace st' = trace st ++ [ENewWatcher] ->
    loop st' = loop st ->
    Do_case w additional st (Ret (Some err)) st'
| Do_bad_dir (b : string) (a : dir) (err : error) (st' : state) :
    fsnotify_NewWatcher w = None ->
    fst (self w st) = Ret (b, None) ->
    In a additional ->
    ConfigurationError w a err ->
    trace st' = trace st ++ [ENewWatcher] ->
    loop st' = loop st ->
    Do_case w additional st (Ret (Some err)) st'
| Do_add_failed (b : string) (additional' : list dir) (timers : gmap string nat)
    (ds : list string) (d : string) (rest : list string) (err : error)
    (st' : state) :
    fsnotify_NewWatcher w = None ->
    fst (self w st) = Ret (b, None) ->
    List.Forall2 (accepted w) additional additional' ->
    filepath_Dir w b :: map path additional' = ds ++ d :: rest ->
    Forall (fun d => watcher_Add w d = None) ds ->
    watcher_Add w d = Some err ->
    loop_ok timers additional' st' ->
    status st' = Some Running ->
    binSelf st' = b ->
    trace st' = trace st ++ [ENewWatcher; EGo]
                  ++ map (fun d => EWatcherAdd d None) ds
                  ++ [EWatcherAdd d (Some err)] ->
    Do_case w additional st
      (Ret (Some (Errorf "reload.Do: cannot add %q to watcher: %w"
                         [ArgString d; ArgError err])))
      st'
| Do_blocked (b : string) (additional' : list dir) (timers : gmap string nat)
    (st' : state) :
    fsnotify_NewWatcher w = None ->
    fst (self w st) = Ret (b, None) ->
    List.Forall2 (accepted w) additional additional' ->
    Forall (fun d => watcher_Add w d = None)
      (filepath_Dir w b :: map path additional') ->
    loop_ok timers additional' st' ->
    status st' = Some Running ->
    binSelf st' = b ->
    done st' = Some fresh_chan ->
    quiet (rt st) (rt st') ->
    Do_case w additional st Blocked st'.

(** ** A concrete process, for running the definitions *)

Module Sample.

Definition tpl : dir := Dir "tpl" (FUser 7).

Definition is_dir (p : string) : bool :=
  String.eqb p "/app" || String.eqb p "/app/tpl" || String.eqb p "/a/tpl".

(** Started as [/app/server -v] in [/app]; [exec] fails. *)
Definition w : world :=
  {| os_Args := ["/app/server"; "-v"]%string;
     os_Environ := ["HOME=/root"; "LANG=C"]%string;
     os_Executable := Ok "/app/server"%string;
     os_Getwd := Ok "/app"%string;
     os_Stat := fun p =>
       if is_dir p then Ok {| IsDir := true |}
       else if String.eqb p "/app/server" then Ok {| IsDir := false |}
       else Err (ErrExternal "no such file or directory");
     filepath_IsAbs := fun p => HasPrefix p "/";
     filepath_Abs := fun p => if HasPrefix p "/" then Ok p else Ok ("/app/" ++ p)%string;
     filepath_Dir := fun _ => "/app"%string;
     fsnotify_NewWatcher := None;
     watcher_Add := fun _ => None;
     watcher_Close := Some (ErrExternal "bad file descriptor");
     syscall_Exec := fun _ _ _ => Some (ErrExternal "exec format error") |}.

(** The same, but the watcher refuses [/app/tpl]. *)
Definition denied : world :=
  {| os_Args := os_Args w;
     os_Environ := os_Environ w;
     os_Executable := os_Executable w;
     os_Getwd := os_Getwd w;
     os_Stat := os_Stat w;
     filepath_IsAbs := filepath_IsAbs w;
     filepath_Abs := filepath_Abs w;
     filepath_Dir := filepath_Dir w;
     fsnotify_NewWatcher := None;
     watcher_Add := fun d =>
       if String.eqb d "/app/tpl"
       then Some (ErrExternal "no space left on device")
       else None;
     watcher_Close := watcher_Close w;
     syscall_Exec := syscall_Exec w |}.

Definition missing : dir := Dir "/nowhere" (FUser 8).

End Sample.

Module SampleExec.

(** [Exec] called by hand before [Do], with a hook set. *)
Definition manual : state := 
  {| binSelf := EmptyString; closeWatcher := Some WatcherClose; OnExec := Some 3%nat;
     rt := rt initial_state; loop := None; done := None; trace := [] |}.

(** A process started through a relative path that the system cannot
    resolve. *)
Definition lost : world :=
  {| os_Args := ["server"]%string;
     os_Environ := [];
     os_Executable := Err (ErrExternal "readlink /proc/self/exe: no such file");
     os_Getwd := os_Getwd Sample.w;
     os_Stat := os_Stat Sample.w;
     filepath_IsAbs := filepath_IsAbs Sample.w;
     filepath_Abs := filepath_Abs Sample.w;
     filepath_Dir := filepath_Dir Sample.w;
     fsnotify_NewWatcher := None;
     watcher_Add := watcher_Add Sample.w;
     watcher_Close := None;
     syscall_Exec := syscall_Exec Sample.w |}.

End SampleExec.

(** The process after [Do] has been started with the given directories
    and has reached [<-done]. *)
Module SampleLoop.

Definition watching (additional : list dir) : state :=
  snd (Do Sample.w additional initial_state).

Definition st_tpl : state := watching [Dir "/a/tpl" (FUser 7)].
Definition timers_tpl : gmap string nat :=
  <["/a/tpl"%string := 1%nat]> (<["/app/server"%string := 0%nat]> ∅).

(** The directory of the executable itself, watched for its callback. *)
Definition st_app : state := watching [Dir "/app" (FUser 7)].
Definition timers_app : gmap string nat :=
  <["/app"%string := 1%nat]> (<["/app/server"%string := 0%nat]> ∅).

Definition removed : Event :=
  {| Name := "/app/server"; EvOp := Z.lor fsnotify_Remove fsnotify_Chmod |}.
Definition created : Event := {| Name := "/app/server"; EvOp := fsnotify_Create |}.
Definition written : Event := {| Name := "/app/server"; EvOp := fsnotify_Write |}.
Definition sibling : Event := {| Name := "/a/tplX/f"; EvOp := fsnotify_Write |}.


(** A create of the executable while its directory is watched too, and
    the clock 100 ms later. *)
Definition st_app_created : state := deliver st_app (0, EventsRecv created).
Definition st_app_later : state := advance delay st_app_created.

(** The events channel, or the errors channel, is closed. *)
Definition blocked : state := snd (Do Sample.w [Sample.tpl] initial_state).
Definition closed_events : state := run_items [(5, EventsClosed)] blocked.
Definition closed_errors : state := run_items [(5, ErrorsClosed)] blocked.
Definition after_write : state := run_items [(3, EventsRecv written)] blocked.

(** The watcher refuses the second directory. *)
Definition refused : outcome (option error) * state :=
  Do Sample.denied [Sample.tpl] initial_state.

End SampleLoop.

(** ** Further vocabulary *)

(** What [stoppedTimer(f)] does to the runtime: the timer is made, armed
    for as long as an [int64] holds, and stopped. *)
Definition stopped_rt (r : runtime) (f : func) : runtime :=
  {| now := now r;
     timer_f := timer_f r ++ [f];
     pending := unschedule (length (timer_f r))
                  (pending r ++ [(length (timer_f r), when (now r) MaxInt64)]);
     fired := fired r |}.

Definition made (fs : list func) (r : runtime) : runtime :=
  fold_left stopped_rt fs r.

(** The entries of [additional] with their paths made absolute. *)
Definition absolute (additional : list dir) (ps : list string) : list dir :=
  map (fun ap => Dir (snd ap) (cb (fst ap))) (combine additional ps).

(** The map after [timers[path] = stoppedTimer(a.cb)] for each directory
    in turn, the first timer being number [n]. *)
Fixpoint register (n : nat) (l : list dir) (timers : gmap string nat)
    : gmap string nat :=
  match l with
  | [] => timers
  | a :: l' => register (S n) l' (<[path a := n]> timers)
  end.

(** The line [Do] logs once it watches. *)
Definition startup_line (w : world) (b : string) (ps : list string) : effect :=
  ELog (Sprintf "restarting %q when it changes%s"
          [ArgString (relpath w b);
           if (0 <? length ps)%nat
           then ArgSprintf " (additional dirs: %s)"
                  [ArgString (Join (map (relpath w) ps) ", ")]
           else ArgString EmptyString]).

(** The process once [Do] waits on [done]: [b] is the executable, [ps] the
    absolute paths of [additional]. *)
Definition watching_state (w : world) (b : string) (additional : list dir)
    (ps : list string) (st : state) : state :=
  {| binSelf := b;
     closeWatcher := Some WatcherClose;
     OnExec := OnExec st;
     rt := made (FExec :: map cb additional) (rt st);
     loop := Some {| g_timers :=
                       register (S (length (timer_f (rt st))))
                         (absolute additional ps)
                         (<[b := length (timer_f (rt st))]> ∅);
                     g_additional := absolute additional ps;
                     g_status := Running |};
     done := Some fresh_chan;
     trace := trace st ++ [ENewWatcher; EGo]
                ++ map (fun d => EWatcherAdd d None) (filepath_Dir w b :: ps)
                ++ [startup_line w b ps] |}.

(** Only the clock moves. *)
Definition ticks (items : list (Z * item)) (st : state) : state :=
  fold_left (fun s ti => advance (fst ti) s) items st.

Definition errors_at (errs : list (Z * error)) : list (Z * item) :=
  map (fun te => (fst te, ErrorsRecv (snd te))) errs.

(** An event that resets nothing: not a write or create, or one whose name
    is neither the executable's nor begins with a directory's path. *)
Definition silent (self_ : string) (additional : list dir) (event : Event) : Prop :=
  trigger event = false
  \/ (Name event <> self_
      /\ Forall (fun a => HasPrefix (Name event) (path a) = false) additional).

Definition silent_item (self_ : string) (additional : list dir) (ti : Z * item)
    : Prop :=
  match snd ti with
  | EventsRecv event => silent self_ additional event
  | _ => True
  end.

(** A run of [n] slashes. *)
Fixpoint slashes (n : nat) : string :=
  match n with
  | O => EmptyString
  | S n' => String "/" (slashes n')
  end.

Definition starts_with_slash (s : string) : bool :=
  match s with
  | String c _ => Ascii.eqb c "/"
  | EmptyString => false
  end.

Module SampleMore.

(** Two entries for the same directory, under two spellings. *)
Definition twice : list dir := [Dir "tpl" (FUser 7); Dir "/app/tpl" (FUser 9)].

(** A directory first, then a file. *)
Definition dir_then_file : list dir :=
  [Dir "tpl" (FUser 7); Dir "/app/server" (FUser 8); Sample.missing].

(** Started without any argument vector, with the path cached. *)
Definition no_args : world :=
  {| os_Args := [];
     os_Environ := os_Environ Sample.w;
     os_Executable := os_Executable Sample.w;
     os_Getwd := os_Getwd Sample.w;
     os_Stat := os_Stat Sample.w;
     filepath_IsAbs := filepath_IsAbs Sample.w;
     filepath_Abs := filepath_Abs Sample.w;
     filepath_Dir := filepath_Dir Sample.w;
     fsnotify_NewWatcher := None;
     watcher_Add := watcher_Add Sample.w;
     watcher_Close := watcher_Close Sample.w;
     syscall_Exec := syscall_Exec Sample.w |}.

Definition cached : state :=
  {| binSelf := "/app/server"; closeWatcher := Some WatcherClose;
     OnExec := Some 3%nat; rt := rt initial_state; loop := None; done := None;
     trace := [] |}.

(** The image is replaced. *)
Definition replaces : world :=
  {| os_Args := os_Args Sample.w;
     os_Environ := os_Environ Sample.w;
     os_Executable := os_Executable Sample.w;
     os_Getwd := os_Getwd Sample.w;
     os_Stat := os_Stat Sample.w;
     filepath_IsAbs := filepath_IsAbs Sample.w;
     filepath_Abs := filepath_Abs Sample.w;
     filepath_Dir := filepath_Dir Sample.w;
     fsnotify_NewWatcher := None;
     watcher_Add := watcher_Add Sample.w;
     watcher_Close := watcher_Close Sample.w;
     syscall_Exec := fun _ _ _ => None |}.

(** No watcher can be made. *)
Definition no_watcher : world :=
  {| os_Args := os_Args Sample.w;
     os_Environ := os_Environ Sample.w;
     os_Executable := os_Executable Sample.w;
     os_Getwd := os_Getwd Sample.w;
     os_Stat := os_Stat Sample.w;
     filepath_IsAbs := filepath_IsAbs Sample.w;
     filepath_Abs := filepath_Abs Sample.w;
     filepath_Dir := filepath_Dir Sample.w;
     fsnotify_NewWatcher := Some (ErrExternal "too many open files");
     watcher_Add := watcher_Add Sample.w;
     watcher_Close := watcher_Close Sample.w;
     syscall_Exec := syscall_Exec Sample.w |}.


Definition on_dir : Event := {| Name := "/app"; EvOp := fsnotify_Write |}.

Definition elsewhere : Event := {| Name := "/var/log/x"; EvOp := fsnotify_Write |}.
Definition in_tpl : Event := {| Name := "/a/tpl/index.html"; EvOp := fsnotify_Write |}.

End SampleMore.

(** * Properties *)

(** ** The restart protocol *)

Lemma self_state (w : world) (st : state) : snd (self w st) = st.
Proof.
  unfold self.
  destruct (os_Args w) as [|bin args]; [reflexivity|].
  destruct (filepath_IsAbs w bin); simpl; [reflexivity|].
  destruct (os_Executable w); reflexivity.
Qed.

Lemma self_run (w : world) (st : state) (r : string * option error) :
  fst (self w st) = Ret r -> self w st = (Ret r, st).
Proof.
  intros H. rewrite (surjective_pairing (self w st)), H, self_state. reflexivity.
Qed.

Lemma exec_calls_app (tr1 tr2 : list effect) :
  exec_calls (tr1 ++ tr2) = exec_calls tr1 ++ exec_calls tr2.
Proof.
  induction tr1 as [|e tr1 IH]; simpl; [reflexivity|].
  destruct e; simpl; rewrite ?IH; reflexivity.
Qed.

(** [Exec] once the name is known: everything up to and including the
    call of [syscall.Exec]. *)
Lemma Exec_run (w : world) (st : state) (name a0 : string) (rest : list string) :
  exec_name w st name ->
  os_Args w = a0 :: rest ->
  let tr := trace st ++ close_step w st ++ hook_step st
              ++ [ESyscallExec name (name :: rest) (os_Environ w)] in
  Exec w st =
    match syscall_Exec w name (name :: rest) (os_Environ w) with
    | None => (Replaced, with_trace tr st)
    | Some err =>
        (Panicked (PanicString (Sprintf "cannot restart: %v" [ArgError err])),
         with_trace tr st)
    end.
Proof.
  intros Hname Hargs tr.
  unfold Exec.
  subst tr. unfold close_step, hook_step.
  unfold bind, gets.
  destruct Hname as [Hne | name Hempty Hself].
  - apply String.eqb_neq in Hne. rewrite Hne.
    unfold Args_from_1, do_syscall_Exec, call_closer, bind, emit, modify, ret.
    rewrite Hargs.
    destruct st as [bs cw oe r l d tr]; simpl in *.
    destruct cw as [[]|], oe as [h|]; simpl;
      destruct (syscall_Exec w bs (bs :: rest) (os_Environ w)); simpl;
      unfold with_trace; simpl; rewrite <- ?app_assoc; reflexivity.
  - rewrite Hempty. simpl. rewrite (self_run _ _ _ Hself). simpl.
    unfold Args_from_1, do_syscall_Exec, call_closer, bind, emit, modify, ret.
    rewrite Hargs.
    destruct st as [bs cw oe r l d tr]; simpl in *.
    destruct cw as [[]|], oe as [h|]; simpl;
      destruct (syscall_Exec w name (name :: rest) (os_Environ w)); simpl;
      unfold with_trace; simpl; rewrite <- ?app_assoc; reflexivity.
Qed.

(** C4.  [Exec] runs its steps in this order: the executable's path is the
    cached [binSelf], or comes from [self] when nothing is cached; then the
    watcher is closed, whatever [Close] answers; then [OnExec] runs if it
    is set; then [syscall.Exec] is called.  Nothing else happens, and no
    step depends on what the one before it answered. *)
Theorem Exec_steps_in_order (w : world) (st : state)
    (name a0 : string) (rest : list string) :
  exec_name w st name ->
  os_Args w = a0 :: rest ->
  trace (snd (Exec w st)) =
    trace st ++ close_step w st ++ hook_step st
      ++ [ESyscallExec name (name :: rest) (os_Environ w)].
Proof.
  intros Hname Hargs. rewrite (Exec_run w st name a0 rest Hname Hargs).
  destruct (syscall_Exec w name (name :: rest) (os_Environ w)); reflexivity.
Qed.

(** C5.  The one call of [syscall.Exec] that [Exec] makes has the
    executable's path as its first argument and as [argv[0]], the rest of
    [os.Args] unchanged after it, and [os.Environ()] as the environment. *)
Theorem Exec_passes_args_and_environ (w : world) (st : state)
    (name a0 : string) (rest : list string) :
  exec_name w st name ->
  os_Args w = a0 :: rest ->
  exec_calls (trace (snd (Exec w st))) =
    exec_calls (trace st) ++ [(name, name :: tail (os_Args w), os_Environ w)].
Proof.
  intros Hname Hargs. rewrite (Exec_run w st name a0 rest Hname Hargs).
  assert (Hclose : exec_calls (close_step w st) = []).
  { unfold close_step. destruct (closeWatcher st); reflexivity. }
  assert (Hhook : exec_calls (hook_step st) = []).
  { unfold hook_step. destruct (OnExec st); reflexivity. }
  rewrite Hargs. simpl tail.
  destruct (syscall_Exec w name (name :: rest) (os_Environ w)); simpl;
    rewrite !exec_calls_app, Hclose, Hhook; reflexivity.
Qed.

(** C6.  When nothing is cached and [self] fails, or when [syscall.Exec]
    comes back, [Exec] panics with a message that carries the error. *)
Theorem Exec_failure_panics (w : world) (st : state) (msg : formatted) :
  Exec_failure w st msg ->
  fst (Exec w st) = Panicked (PanicString msg).
Proof.
  intros [s err Hempty Hself | name a0 rest err Hname Hargs Hexec].
  - unfold Exec, bind, gets. rewrite Hempty. simpl.
    rewrite (self_run _ _ _ Hself). reflexivity.
  - rewrite (Exec_run w st name a0 rest Hname Hargs), Hexec. reflexivity.
Qed.

(** [Exec] never gives control back to its caller. *)
Lemma Exec_never_returns (w : world) (st : state) : fst (Exec w st) <> Ret tt.
Proof.
  assert (Htail : forall name st1,
    fst ((do close <- gets closeWatcher >>
          run match close with
              | Some c => run call_closer w c >> ret tt
              | None => ret tt
              end >>
          do hook <- gets OnExec >>
          run match hook with
              | Some h => emit (ECall h)
              | None => ret tt
              end >>
          do rest <- Args_from_1 w >>
          do err <- do_syscall_Exec w name ([name] ++ rest) (os_Environ w) >>
          match err with
          | Some err => panic (PanicString (Sprintf "cannot restart: %v" [ArgError err]))
          | None => ret tt
          end) st1) <> Ret tt).
  { intros name st1.
    unfold Args_from_1, do_syscall_Exec, call_closer, bind, gets, emit, modify, ret, panic.
    destruct st1 as [bs cw oe r l d tr]; simpl.
    destruct cw as [[]|], oe; simpl;
      (destruct (os_Args w) as [|a0 rest]; simpl; [discriminate|]);
      destruct (syscall_Exec w name (name :: rest) (os_Environ w)); simpl; discriminate. }
  unfold Exec. unfold bind at 1. unfold gets at 1. unfold bind at 1.
  destruct (String.eqb (binSelf st) EmptyString).
  - unfold bind at 1.
    destruct (self w st) as [[[selfName [err|]]| | |] st1]; simpl.
    all: try apply Htail.
    all: unfold panic; simpl; discriminate.
  - apply Htail.
Qed.

Lemma exec_name_manual : exec_name Sample.w SampleExec.manual "/app/server".
Proof. apply exec_name_fresh; reflexivity. Defined.

Lemma Exec_steps_in_order_witness :
  trace (snd (Exec Sample.w SampleExec.manual)) =
    [EWatcherClose (Some (ErrExternal "bad file descriptor"));
     ECall 3%nat;
     ESyscallExec "/app/server" ["/app/server"; "-v"] ["HOME=/root"; "LANG=C"]]%string.
Proof.
  exact (Exec_steps_in_order Sample.w SampleExec.manual "/app/server" "/app/server"
           ["-v"%string] exec_name_manual eq_refl).
Defined.

Lemma Exec_passes_args_and_environ_witness :
  exec_calls (trace (snd (Exec Sample.w SampleExec.manual))) =
    [("/app/server", ["/app/server"; "-v"], ["HOME=/root"; "LANG=C"])]%string.
Proof.
  exact (Exec_passes_args_and_environ Sample.w SampleExec.manual "/app/server"
           "/app/server" ["-v"%string] exec_name_manual eq_refl).
Defined.

Lemma Exec_failure_panics_witness :
  fst (Exec Sample.w SampleExec.manual) =
    Panicked (PanicString (Sprintf "cannot restart: %v"
                             [ArgError (ErrExternal "exec format error")]))
  /\ fst (Exec SampleExec.lost SampleExec.manual) =
    Panicked (PanicString
      (Sprintf "cannot restart: cannot find self: %v"
         [ArgError
            (Errorf "cannot get path to binary %q (launch with absolute path): %w"
               [ArgString "server";
                ArgError (ErrExternal "readlink /proc/self/exe: no such file")])])).
Proof.
  split.
  - apply (Exec_failure_panics Sample.w SampleExec.manual).
    apply (Exec_failure_image _ _ "/app/server" "/app/server" ["-v"%string]);
      [exact exec_name_manual | reflexivity | reflexivity].
  - apply (Exec_failure_panics SampleExec.lost SampleExec.manual).
    apply (Exec_failure_self _ _ EmptyString); reflexivity.
Defined.

(** ** Timers: pending entries *)

Lemma unschedule_incl (t : nat) (l : list (nat * Z)) (e : nat * Z) :
  In e (unschedule t l) -> In e l.
Proof.
  induction l as [|x l IH]; simpl; [tauto|].
  destruct (Nat.eqb (fst x) t); simpl; tauto.
Qed.

Lemma unschedule_other (t : nat) (l : list (nat * Z)) (e : nat * Z) :
  fst e <> t -> In e l -> In e (unschedule t l).
Proof.
  intros Hne. induction l as [|x l IH]; simpl; [tauto|].
  destruct (Nat.eqb_spec (fst x) t) as [Heq|Hneq]; simpl.
  - intros [->|Hin]; [congruence | exact Hin].
  - tauto.
Qed.

Lemma unschedule_NoDup (t : nat) (l : list (nat * Z)) :
  List.NoDup (map fst l) ->
  List.NoDup (map fst (unschedule t l)) /\ ~ In t (map fst (unschedule t l)).
Proof.
  induction l as [|x l IH]; simpl; intros Hnd.
  - split; [constructor | tauto].
  - inversion Hnd as [|y ys Hnotin Hnd']; subst.
    destruct (Nat.eqb_spec (fst x) t) as [Heq|Hneq].
    + subst t. split; assumption.
    + destruct (IH Hnd') as [IH1 IH2]. simpl. split.
      * constructor; [|exact IH1].
        intros Hin. apply Hnotin.
        apply in_map_iff in Hin as [e [He Hin]].
        apply in_map_iff. exists e. split; [exact He|].
        eapply unschedule_incl; exact Hin.
      * intros [Heq|Hin]; [congruence | tauto].
Qed.

Lemma unschedule_fresh (t : nat) (l : list (nat * Z)) (d : Z) :
  ~ In t (map fst l) -> unschedule t (l ++ [(t, d)]) = l.
Proof.
  induction l as [|x l IH]; simpl; intros Hnotin.
  - rewrite Nat.eqb_refl. reflexivity.
  - destruct (Nat.eqb_spec (fst x) t) as [Heq|Hneq]; [tauto|].
    rewrite IH; tauto.
Qed.

Lemma reset_rt_NoDup (d : Z) (r : runtime) (t : nat) :
  List.NoDup (map fst (pending r)) ->
  List.NoDup (map fst (pending (reset_rt d r t))).
Proof.
  intros Hnd. simpl. rewrite map_app. simpl.
  destruct (unschedule_NoDup t _ Hnd) as [H1 H2].
  apply NoDup_ListNoDup, NoDup_app. repeat split.
  - apply NoDup_ListNoDup, H1.
  - intros x Hx Hx'. apply list_elem_of_In in Hx.
    apply list_elem_of_In in Hx'. destruct Hx' as [<-|[]]. tauto.
  - apply NoDup_ListNoDup. repeat constructor. simpl. tauto.
Qed.

Lemma resets_NoDup (ids : list nat) (r : runtime) :
  List.NoDup (map fst (pending r)) ->
  List.NoDup (map fst (pending (resets ids r))).
Proof.
  unfold resets. revert r.
  induction ids as [|t ids IH]; simpl; intros r Hnd; [exact Hnd|].
  apply IH, reset_rt_NoDup, Hnd.
Qed.

Lemma resets_frame (ids : list nat) (r : runtime) :
  now (resets ids r) = now r /\ timer_f (resets ids r) = timer_f r
  /\ fired (resets ids r) = fired r.
Proof.
  unfold resets. revert r.
  induction ids as [|t ids IH]; simpl; intros r; [tauto|].
  destruct (IH (reset_rt delay r t)) as (H1 & H2 & H3).
  rewrite H1, H2, H3. simpl. tauto.
Qed.

(** A timer that was reset is pending for [delay] after now. *)
Lemma resets_In (ids : list nat) (r : runtime) (t : nat) :
  In (t, when (now r) delay) (pending r) \/ In t ids ->
  In (t, when (now r) delay) (pending (resets ids r)).
Proof.
  unfold resets. revert r.
  induction ids as [|t' ids IH]; simpl; intros r H.
  - tauto.
  - change (now r) with (now (reset_rt delay r t')). apply IH.
    simpl. destruct (Nat.eq_dec t' t) as [->|Hne].
    + left. apply in_or_app. right. left. reflexivity.
    + destruct H as [H|[H|H]]; [|congruence|tauto].
      left. apply in_or_app. left. apply unschedule_other; simpl; auto.
Qed.

(** A timer that was not reset keeps its entries. *)
Lemma resets_other (ids : list nat) (r : runtime) (t : nat) :
  ~ In t ids -> of_timer t (pending (resets ids r)) = of_timer t (pending r).
Proof.
  unfold resets. revert r.
  induction ids as [|t' ids IH]; simpl; intros r Hnotin; [reflexivity|].
  rewrite IH by tauto. simpl. unfold of_timer. rewrite List.filter_app. simpl.
  destruct (Nat.eqb_spec t' t) as [Heq|Hne]; [tauto|].
  rewrite app_nil_r. clear - Hne.
  induction (pending r) as [|x l IHl]; simpl; [reflexivity|].
  destruct (Nat.eqb_spec (fst x) t') as [Heq|Hneq]; simpl.
  - subst t'. destruct (Nat.eqb_spec (fst x) t); [congruence | reflexivity].
  - rewrite IHl. reflexivity.
Qed.

Lemma of_timer_In (t : nat) (l : list (nat * Z)) (e : nat * Z) :
  In e (of_timer t l) <-> In e l /\ fst e = t.
Proof.
  unfold of_timer. rewrite List.filter_In.
  destruct (Nat.eqb_spec (fst e) t); intuition congruence.
Qed.

(** With one entry per timer, the entries of a pending timer are that one. *)
Lemma of_timer_NoDup (t : nat) (l : list (nat * Z)) (d : Z) :
  List.NoDup (map fst l) -> In (t, d) l -> of_timer t l = [(t, d)].
Proof.
  induction l as [|x l IH]; simpl; intros Hnd Hin; [tauto|].
  inversion Hnd as [|y ys Hnotin Hnd']; subst.
  destruct Hin as [->|Hin]; simpl.
  - rewrite Nat.eqb_refl. f_equal.
    assert (Hnone : forall l', ~ In t (map fst l') -> of_timer t l' = []).
    { clear. induction l' as [|y l' IHl']; simpl; intros H; [reflexivity|].
      destruct (Nat.eqb_spec (fst y) t); [tauto|]. apply IHl'. tauto. }
    apply Hnone, Hnotin.
  - destruct (Nat.eqb_spec (fst x) t) as [Heq|Hne].
    + exfalso. apply Hnotin. rewrite Heq.
      apply in_map_iff. exists (t, d). auto.
    + apply IH; assumption.
Qed.


Lemma advance_NoDup (T : Z) (r : runtime) :
  List.NoDup (map fst (pending r)) ->
  List.NoDup (map fst (pending (advance_rt T r))).
Proof.
  simpl. induction (pending r) as [|x l IHl]; simpl; intros Hnd; [constructor|].
  inversion Hnd as [|y ys Hnotin Hnd']; subst.
  destruct (negb (is_due T x)); simpl; [|auto].
  constructor; [|auto]. intros Hin. apply Hnotin.
  apply in_map_iff in Hin as [e [He Hin]]. apply List.filter_In in Hin.
  apply in_map_iff. exists e. tauto.
Qed.

(** ** The goroutine, one item at a time *)

Lemma with_rt_id (st : state) : with_rt (rt st) st = st.
Proof. destruct st; reflexivity. Qed.

Lemma Timer_Reset_run (t : nat) (d : Z) (st : state) :
  Timer_Reset t d st =
    (Ret (is_pending t (pending (rt st))), with_rt (reset_rt d (rt st) t) st).
Proof. reflexivity. Qed.

Lemma timers_Reset_run (timers : gmap string nat) (key : string) (t : nat)
    (st : state) :
  timers !! key = Some t ->
  timers_Reset timers key st = (Ret tt, with_rt (reset_rt delay (rt st) t) st).
Proof. intros H. unfold timers_Reset. rewrite H. reflexivity. Qed.

Lemma range_additional_run (event : Event) (timers : gmap string nat)
    (additional : list dir) (st : state) :
  Forall (fun a => is_Some (timers !! path a)) additional ->
  range_additional event timers additional st =
    (Ret tt,
     with_rt (resets (omap (fun k => timers !! k)
                        (map path (List.filter
                                     (fun a => HasPrefix (Name event) (path a))
                                     additional)))
                (rt st)) st).
Proof.
  intros Hok. revert st.
  induction Hok as [|a rest [t Ht] Hrest IH]; intros st; simpl.
  - unfold ret, resets. simpl. rewrite with_rt_id. reflexivity.
  - unfold bind at 1. destruct (HasPrefix (Name event) (path a)); simpl.
    + rewrite (timers_Reset_run _ _ _ _ Ht), Ht. simpl. rewrite IH. reflexivity.
    + unfold ret. rewrite IH. reflexivity.
Qed.

Lemma on_event_run (timers : gmap string nat) (additional : list dir)
    (event : Event) (st : state) :
  is_Some (timers !! binSelf st) ->
  Forall (fun a => is_Some (timers !! path a)) additional ->
  on_event timers additional event st =
    (Ret tt,
     with_rt (resets (event_ids (binSelf st) timers additional event) (rt st)) st).
Proof.
  intros [t Ht] Hok. unfold on_event, event_ids, trigger.
  destruct (Event_Has event fsnotify_Write || Event_Has event fsnotify_Create); simpl.
  - unfold bind at 1, gets. unfold bind at 1, matched_keys.
    destruct (String.eqb (Name event) (binSelf st)); simpl.
    + rewrite (timers_Reset_run _ _ _ _ Ht), Ht. simpl.
      rewrite range_additional_run by exact Hok. reflexivity.
    + unfold ret. rewrite range_additional_run by exact Hok. reflexivity.
  - unfold ret, resets. simpl. rewrite with_rt_id. reflexivity.
Qed.

Lemma goroutine_step_running (timers : gmap string nat) (additional : list dir)
    (it : item) (st : state) :
  loop_ok timers additional st ->
  status st = Some Running ->
  goroutine_step it st = step_result timers additional it st.
Proof.
  intros [Hcl Hself Hadd _] Hrun. unfold goroutine_step, closure, status in *.
  destruct (loop st) as [[ts ad s]|] eqn:Hloop; [|discriminate].
  simpl in *. injection Hcl as -> ->. injection Hrun as ->.
  destruct it as [err| |event|]; simpl; try reflexivity.
  unfold bind. rewrite on_event_run by assumption. reflexivity.
Qed.

Lemma goroutine_step_exited (it : item) (st : state) :
  status st = Some Exited -> goroutine_step it st = st.
Proof.
  unfold goroutine_step, status.
  destruct (loop st) as [[ts ad s]|]; [|discriminate].
  simpl. intros [= ->]. reflexivity.
Qed.

(** The clock does not touch what the goroutine captured. *)
Lemma loop_ok_advance (timers : gmap string nat) (additional : list dir)
    (T : Z) (st : state) :
  loop_ok timers additional st -> loop_ok timers additional (advance T st).
Proof. intros [H1 H2 H3 H4]. split; assumption. Qed.

(** What no item and no tick of the clock changes. *)
Lemma deliver_frame (timers : gmap string nat) (additional : list dir)
    (st : state) (ti : Z * item) :
  loop_ok timers additional st ->
  loop_ok timers additional (deliver st ti)
  /\ binSelf (deliver st ti) = binSelf st
  /\ done (deliver st ti) = done st
  /\ timer_f (rt (deliver st ti)) = timer_f (rt st).
Proof.
  intros Hok. unfold deliver.
  pose proof (loop_ok_advance _ _ ti.1 _ Hok) as Hok'.
  destruct Hok as [_ _ _ [Hrun|Hex]].
  - rewrite (goroutine_step_running timers additional) by assumption.
    destruct Hok' as [H1 H2 H3 H4].
    destruct ti as [T [err| |event|]]; simpl; repeat split;
      try assumption; try reflexivity; try (right; reflexivity);
      try (left; exact Hrun).
    destruct (resets_frame (event_ids (binSelf st) timers additional event)
                (advance_rt T (rt st))) as (_ & -> & _).
    reflexivity.
  - rewrite goroutine_step_exited by exact Hex. auto.
Qed.

Lemma run_items_frame (timers : gmap string nat) (additional : list dir)
    (items : list (Z * item)) (st : state) :
  loop_ok timers additional st ->
  loop_ok timers additional (run_items items st)
  /\ binSelf (run_items items st) = binSelf st
  /\ done (run_items items st) = done st
  /\ timer_f (rt (run_items items st)) = timer_f (rt st).
Proof.
  unfold run_items. revert st.
  induction items as [|ti items IH]; simpl; intros st Hok; [tauto|].
  destruct (deliver_frame _ _ _ ti Hok) as (H1 & H2 & H3 & H4).
  destruct (IH _ H1) as (G1 & G2 & G3 & G4).
  rewrite G2, G3, G4. tauto.
Qed.

(** One entry per timer, at every instant. *)
Lemma deliver_NoDup (timers : gmap string nat) (additional : list dir)
    (st : state) (ti : Z * item) :
  loop_ok timers additional st ->
  List.NoDup (map fst (pending (rt st))) ->
  List.NoDup (map fst (pending (rt (deliver st ti)))).
Proof.
  intros Hok Hnd. unfold deliver.
  pose proof (loop_ok_advance _ _ ti.1 _ Hok) as Hok'.
  pose proof (advance_NoDup ti.1 _ Hnd) as Hnd'.
  destruct Hok as [_ _ _ [Hrun|Hex]].
  - rewrite (goroutine_step_running timers additional) by assumption.
    destruct ti as [T [err| |event|]]; simpl; try exact Hnd'.
    apply resets_NoDup. exact Hnd'.
  - rewrite goroutine_step_exited by exact Hex. exact Hnd'.
Qed.

Lemma run_items_NoDup (timers : gmap string nat) (additional : list dir)
    (items : list (Z * item)) (st : state) :
  loop_ok timers additional st ->
  List.NoDup (map fst (pending (rt st))) ->
  List.NoDup (map fst (pending (rt (run_items items st)))).
Proof.
  unfold run_items. revert st.
  induction items as [|ti items IH]; simpl; intros st Hok Hnd; [exact Hnd|].
  apply IH.
  - apply (deliver_frame _ _ _ ti Hok).
  - apply (deliver_NoDup _ _ _ ti Hok Hnd).
Qed.

Lemma loop_ok_tpl :
  loop_ok SampleLoop.timers_tpl [Dir "/a/tpl" (FUser 7)] SampleLoop.st_tpl.
Proof.
  split.
  - vm_compute. reflexivity.
  - exists 0%nat. vm_compute. reflexivity.
  - repeat constructor. exists 1%nat. vm_compute. reflexivity.
  - left. reflexivity.
Defined.

Lemma loop_ok_app :
  loop_ok SampleLoop.timers_app [Dir "/app" (FUser 7)] SampleLoop.st_app.
Proof.
  split.
  - vm_compute. reflexivity.
  - exists 0%nat. vm_compute. reflexivity.
  - repeat constructor. exists 1%nat. vm_compute. reflexivity.
  - left. reflexivity.
Defined.

(** ** Which events arm a timer *)

(** Against one bit, the mask is the bit or nothing, so that testing the
    result against zero or against the bit is the same test. *)
Lemma land_bit (o k : Z) :
  0 <= k -> Z.land o (Z.shiftl 1 k) = if Z.testbit o k then Z.shiftl 1 k else 0.
Proof.
  intros Hk. rewrite Z.shiftl_1_l. apply Z.bits_inj'. intros n Hn.
  rewrite Z.land_spec, (Z.pow2_bits_eqb k n Hk).
  destruct (Z.eqb_spec k n) as [->|Hne].
  - destruct (Z.testbit o n); simpl.
    + rewrite (Z.pow2_bits_eqb n n Hn), Z.eqb_refl. reflexivity.
    + rewrite Z.bits_0. reflexivity.
  - rewrite andb_false_r. destruct (Z.testbit o k).
    + rewrite (Z.pow2_bits_eqb k n Hk). symmetry. apply Z.eqb_neq, Hne.
    + rewrite Z.bits_0. reflexivity.
Qed.

Lemma Op_Has_bit (o k : Z) :
  0 <= k ->
  Op_Has o (Z.shiftl 1 k) = Z.testbit o k
  /\ Op_Has o (Z.shiftl 1 k) = (Z.land o (Z.shiftl 1 k) =? Z.shiftl 1 k).
Proof.
  intros Hk. unfold Op_Has. rewrite (land_bit o k Hk).
  assert (Hpos : 0 < Z.shiftl 1 k) by (rewrite Z.shiftl_1_l; apply Z.pow_pos_nonneg; lia).
  destruct (Z.testbit o k).
  - rewrite Z.eqb_refl. destruct (Z.eqb_spec (Z.shiftl 1 k) 0); [lia|].
    split; reflexivity.
  - rewrite Z.eqb_refl. destruct (Z.eqb_spec 0 (Z.shiftl 1 k)); [lia|].
    split; reflexivity.
Qed.

(** C3.  An event that is neither a write nor a create leaves the goroutine
    and every timer as they were: the item is consumed and nothing is
    armed, for whatever path the event names. *)
Theorem other_kinds_arm_nothing (event : Event) (st : state) :
  Event_Has event fsnotify_Write = false ->
  Event_Has event fsnotify_Create = false ->
  goroutine_step (EventsRecv event) st = st.
Proof.
  intros Hw Hc. unfold goroutine_step.
  destruct (loop st) as [g|]; [|reflexivity].
  destruct (g_status g); try reflexivity.
  unfold loop_body, on_event, bind. rewrite Hw, Hc. reflexivity.
Qed.

Lemma other_kinds_arm_nothing_witness :
  goroutine_step (EventsRecv SampleLoop.removed) SampleLoop.st_tpl = SampleLoop.st_tpl.
Proof.
  apply (other_kinds_arm_nothing SampleLoop.removed SampleLoop.st_tpl); reflexivity.
Defined.

(** Remove, rename and chmod, alone or together, are such events. *)
Lemma remove_rename_chmod_no_trigger (name : string) (r n c : bool) :
  trigger {| Name := name;
             EvOp := Z.lor (if r then fsnotify_Remove else 0)
                       (Z.lor (if n then fsnotify_Rename else 0)
                          (if c then fsnotify_Chmod else 0)) |} = false.
Proof. destruct r, n, c; reflexivity. Qed.

Lemma HasPrefix_app (p suffix : string) : HasPrefix (p ++ suffix) p = true.
Proof.
  unfold HasPrefix. apply andb_true_iff. split.
  - apply Nat.leb_le. induction p as [|c p IH]; simpl; lia.
  - apply String.eqb_eq. induction p as [|c p IH]; simpl.
    + destruct suffix; reflexivity.
    + rewrite IH. reflexivity.
Qed.

Lemma omap_In (timers : gmap string nat) (keys : list string) (k : string) (t : nat) :
  In k keys -> timers !! k = Some t -> In t (omap (fun k => timers !! k) keys).
Proof.
  intros Hin Ht. apply list_elem_of_In, list_elem_of_omap.
  exists k. split; [apply list_elem_of_In, Hin | exact Ht].
Qed.

(** The timer of a directory whose path begins the event's name is among
    those the event resets. *)
Lemma event_ids_additional (self_ : string) (timers : gmap string nat)
    (additional : list dir) (event : Event) (a : dir) (t : nat) :
  trigger event = true ->
  In a additional ->
  HasPrefix (Name event) (path a) = true ->
  timers !! path a = Some t ->
  In t (event_ids self_ timers additional event).
Proof.
  intros Htr Hin Hpre Ht. unfold event_ids. rewrite Htr.
  apply (omap_In _ _ (path a)); [|exact Ht].
  unfold matched_keys. apply in_or_app. right.
  apply in_map, List.filter_In. tauto.
Qed.

(** C10.  The match against an additional directory is a comparison of
    strings: whenever the name of a write or create event begins with the
    directory's absolute path, whatever follows, the directory's timer is
    armed for 100 ms from now. *)
Theorem prefix_match_is_raw (timers : gmap string nat) (additional : list dir)
    (st : state) (a : dir) (t : nat) (event : Event) (suffix : string) :
  loop_ok timers additional st ->
  status st = Some Running ->
  In a additional ->
  timers !! path a = Some t ->
  trigger event = true ->
  Name event = (path a ++ suffix)%string ->
  In (t, when (now (rt st)) delay)
     (pending (rt (goroutine_step (EventsRecv event) st))).
Proof.
  intros Hok Hrun Hin Ht Htr Hname.
  rewrite (goroutine_step_running timers additional) by assumption.
  simpl. apply resets_In. right.
  apply (event_ids_additional _ _ _ _ a); try assumption.
  rewrite Hname. apply HasPrefix_app.
Qed.

(** [/a/tplX/f] is not inside [/a/tpl], and arms its timer. *)
Lemma prefix_match_is_raw_witness :
  In (1%nat, 100000000)
     (pending (rt (goroutine_step (EventsRecv SampleLoop.sibling) SampleLoop.st_tpl))).
Proof.
  apply (prefix_match_is_raw SampleLoop.timers_tpl [Dir "/a/tpl" (FUser 7)]
           SampleLoop.st_tpl (Dir "/a/tpl" (FUser 7)) 1%nat SampleLoop.sibling "X/f").
  - exact loop_ok_tpl.
  - reflexivity.
  - left. reflexivity.
  - vm_compute. reflexivity.
  - reflexivity.
  - reflexivity.
Defined.

(** ** The executable and a directory that both match *)

(** Against C9 as stated.  An event on the executable, while the directory
    that holds it is watched as well: the comparison with [binSelf] comes first and arms the
    timer of [Exec], and the loop over [additional] follows and arms the
    directory's timer too.  Both run 100 ms later; the callback is neither
    skipped nor replaced by the restart. *)
Lemma both_timers_run :
  Name SampleLoop.created = binSelf SampleLoop.st_app
  /\ HasPrefix (Name SampleLoop.created) "/app" = true
  /\ g_additional <$> loop SampleLoop.st_app = Some [Dir "/app" (FUser 7)]
  /\ pending (rt SampleLoop.st_app_created) = [(0%nat, delay); (1%nat, delay)]
  /\ timer_f (rt SampleLoop.st_app_later) = [FExec; FUser 7]
  /\ fired (rt SampleLoop.st_app) = []
  /\ fired (rt SampleLoop.st_app_later) = [(0%nat, delay); (1%nat, delay)].
Proof. vm_compute. repeat split; reflexivity. Qed.

(** For a write or create event whose name is [binSelf] and also begins
    with the path of an additional directory, the timer under [binSelf] is
    reset first and the timer under the directory's path after it. *)
Lemma matched_both_reset (timers : gmap string nat)
    (additional : list dir) (st : state) (a : dir) (tself ta : nat)
    (event : Event) :
  loop_ok timers additional st ->
  status st = Some Running ->
  trigger event = true ->
  Name event = binSelf st ->
  timers !! binSelf st = Some tself ->
  In a additional ->
  HasPrefix (Name event) (path a) = true ->
  timers !! path a = Some ta ->
  exists ids,
    goroutine_step (EventsRecv event) st = with_rt (resets (tself :: ids) (rt st)) st
    /\ In ta ids
    /\ In (tself, when (now (rt st)) delay)
         (pending (rt (goroutine_step (EventsRecv event) st)))
    /\ In (ta, when (now (rt st)) delay)
         (pending (rt (goroutine_step (EventsRecv event) st))).
Proof.
  intros Hok Hrun Htr Hname Hself Hin Hpre Hta.
  rewrite (goroutine_step_running timers additional) by assumption.
  exists (omap (fun k => timers !! k)
            (map path (List.filter (fun a => HasPrefix (Name event) (path a))
                         additional))).
  assert (Hids : event_ids (binSelf st) timers additional event =
                 tself :: omap (fun k => timers !! k)
                            (map path (List.filter
                                         (fun a => HasPrefix (Name event) (path a))
                                         additional))).
  { unfold event_ids, matched_keys. rewrite Htr, Hname, String.eqb_refl.
    simpl. rewrite Hself. reflexivity. }
  assert (Hta' : In ta (omap (fun k => timers !! k)
                          (map path (List.filter
                                       (fun a => HasPrefix (Name event) (path a))
                                       additional)))).
  { apply (omap_In _ _ (path a)); [|exact Hta].
    apply in_map, List.filter_In. tauto. }
  simpl. rewrite Hids. repeat split.
  - exact Hta'.
  - apply resets_In. right. left. reflexivity.
  - apply resets_In. right. right. exact Hta'.
Qed.

(** ** Debouncing *)

Lemma when_delay (t : Z) :
  0 <= t -> t + delay <= MaxInt64 -> when t delay = t + delay.
Proof.
  unfold when, wrap_int64, delay, Millisecond, MaxInt64. intros H0 Hmax.
  change (100 * 1000000 <=? 0) with false. cbv beta iota zeta.
  rewrite Z.mod_small by lia.
  destruct (Z.ltb_spec (t + 100 * 1000000 + 2 ^ 63 - 2 ^ 63) 0); lia.
Qed.

Lemma filter_filter_comm {A} (f g : A -> bool) (l : list A) :
  List.filter f (List.filter g l) = List.filter g (List.filter f l).
Proof.
  induction l as [|x l IH]; simpl; [reflexivity|].
  destruct (f x) eqn:Hf, (g x) eqn:Hg; simpl; rewrite ?Hf, ?Hg, IH; reflexivity.
Qed.

(** A timer whose entries are all due later does not run. *)
Lemma advance_not_due (T : Z) (r : runtime) (t : nat) :
  (forall d, In (t, d) (pending r) -> T < d) ->
  of_timer t (fired (advance_rt T r)) = of_timer t (fired r)
  /\ of_timer t (pending (advance_rt T r)) = of_timer t (pending r).
Proof.
  intros Hlater. simpl. unfold of_timer.
  rewrite List.filter_app, !(filter_filter_comm (fun e => Nat.eqb (fst e) t)).
  fold (of_timer t (pending r)).
  assert (Hall : forall e, In e (of_timer t (pending r)) -> is_due T e = false).
  { intros [t' d] He. apply of_timer_In in He as [He Ht]. simpl in Ht. subst t'.
    unfold is_due. simpl. apply Z.leb_gt, Hlater, He. }
  induction (of_timer t (pending r)) as [|x l IHl]; simpl.
  - rewrite app_nil_r. tauto.
  - rewrite (Hall x) by (left; reflexivity). simpl.
    destruct IHl as [IH1 IH2]; [intros e He; apply Hall; right; exact He|].
    rewrite IH2. split; [exact IH1 | reflexivity].
Qed.

(** A timer whose one entry is due runs once, at the instant of the entry. *)
Lemma advance_due (T : Z) (r : runtime) (t : nat) (d : Z) :
  of_timer t (pending r) = [(t, d)] ->
  d <= T ->
  of_timer t (fired (advance_rt T r)) = of_timer t (fired r) ++ [(t, d)]
  /\ of_timer t (pending (advance_rt T r)) = [].
Proof.
  intros Hone Hdue. simpl. unfold of_timer in *.
  rewrite List.filter_app, !(filter_filter_comm (fun e => Nat.eqb (fst e) t)), Hone.
  simpl. unfold is_due. simpl.
  destruct (Z.leb_spec d T); [|lia]. simpl. tauto.
Qed.

Lemma on_path_ids (timers : gmap string nat) (additional : list dir)
    (self_ p : string) (t : nat) (event : Event) :
  timers !! p = Some t ->
  on_path self_ additional p event ->
  In t (event_ids self_ timers additional event).
Proof.
  intros Ht [Htr [[-> Hname] | [Hex Hpre]]].
  - unfold event_ids, matched_keys. rewrite Htr, Hname, String.eqb_refl.
    simpl. rewrite Ht. left. reflexivity.
  - apply List.Exists_exists in Hex as [a [Hin <-]].
    apply (event_ids_additional _ _ _ _ a); assumption.
Qed.

(** One event of a burst: the pending deadline, not yet due, is replaced
    by the event's instant plus the delay, and nothing has run. *)
Lemma burst_step (timers : gmap string nat) (additional : list dir)
    (p : string) (t : nat) (st : state) (T : Z) (event : Event) :
  loop_ok timers additional st ->
  status st = Some Running ->
  List.NoDup (map fst (pending (rt st))) ->
  timers !! p = Some t ->
  on_path (binSelf st) additional p event ->
  now (rt st) <= T -> 0 <= T -> T + delay <= MaxInt64 ->
  (forall d, In (t, d) (pending (rt st)) -> T < d) ->
  let st' := deliver st (T, EventsRecv event) in
  status st' = Some Running
  /\ now (rt st') = T
  /\ of_timer t (pending (rt st')) = [(t, T + delay)]
  /\ of_timer t (fired (rt st')) = of_timer t (fired (rt st)).
Proof.
  intros Hok Hrun Hnd Ht Hon Hnow H0 Hmax Hlater st'.
  pose proof (loop_ok_advance _ _ T _ Hok) as Hok'.
  assert (Hst' : st' = with_rt (resets (event_ids (binSelf st) timers additional event)
                                  (advance_rt T (rt st))) st).
  { unfold st', deliver. simpl fst. simpl snd.
    rewrite (goroutine_step_running timers additional) by assumption.
    reflexivity. }
  rewrite Hst'. simpl.
  destruct (resets_frame (event_ids (binSelf st) timers additional event)
              (advance_rt T (rt st))) as (Hn & _ & Hf).
  rewrite Hn, Hf.
  assert (HT : now (advance_rt T (rt st)) = T) by (simpl; lia).
  repeat split.
  - unfold status in *. simpl. exact Hrun.
  - exact HT.
  - apply of_timer_NoDup.
    + apply resets_NoDup, advance_NoDup, Hnd.
    + rewrite <- (when_delay T H0 Hmax). rewrite <- HT at 1.
      apply resets_In. right. eapply on_path_ids; eassumption.
  - apply advance_not_due, Hlater.
Qed.

Lemma last_cons (l : list Z) (a d : Z) : List.last (a :: l) d = List.last l a.
Proof.
  revert a d. induction l as [|x l IH]; intros a d; [reflexivity|].
  change (List.last (a :: x :: l) d) with (List.last (x :: l) d).
  rewrite (IH x d), (IH x a). reflexivity.
Qed.

Lemma burst_run (timers : gmap string nat) (additional : list dir)
    (p : string) (t : nat) (rest : list (Z * Event)) :
  forall (st : state) (t1 : Z) (e1 : Event),
  loop_ok timers additional st ->
  status st = Some Running ->
  List.NoDup (map fst (pending (rt st))) ->
  timers !! p = Some t ->
  Forall (on_path (binSelf st) additional p) (e1 :: map snd rest) ->
  now (rt st) <= t1 -> 0 <= t1 ->
  close_together t1 (map fst rest) ->
  List.last (map fst rest) t1 + delay <= MaxInt64 ->
  (forall d, In (t, d) (pending (rt st)) -> t1 < d) ->
  let st' := run_items (events_at ((t1, e1) :: rest)) st in
  of_timer t (pending (rt st')) = [(t, List.last (map fst rest) t1 + delay)]
  /\ of_timer t (fired (rt st')) = of_timer t (fired (rt st)).
Proof.
  induction rest as [|[t2 e2] rest IH];
    intros st t1 e1 Hok Hrun Hnd Ht Hon Hnow H0 Hclose Hmax Hlater.
  - simpl in *. unfold run_items. simpl.
    apply Forall_inv in Hon.
    destruct (burst_step _ _ _ _ _ t1 e1 Hok Hrun Hnd Ht Hon Hnow H0 Hmax Hlater)
      as (_ & _ & H3 & H4).
    tauto.
  - simpl in Hclose. destruct Hclose as [Hgap Hclose].
    assert (Hle : t2 <= List.last (map fst ((t2, e2) :: rest)) t1).
    { change (map fst ((t2, e2) :: rest)) with (t2 :: map fst rest).
      clear - Hclose. revert t2 Hclose.
      induction (map fst rest) as [|t3 l IHl]; intros t2 Hclose.
      - simpl. lia.
      - destruct Hclose as [Hgap Hclose]. specialize (IHl t3 Hclose).
        change (List.last (t2 :: t3 :: l) t1) with (List.last (t3 :: l) t1). lia. }
    assert (Hlast : List.last (map fst ((t2, e2) :: rest)) t1
                    = List.last (map fst rest) t2).
    { apply last_cons. }
    inversion Hon as [|x l Hon1 Hon']; subst.
    assert (Hmax1 : t1 + delay <= MaxInt64) by lia.
    destruct (burst_step _ _ _ _ _ t1 e1 Hok Hrun Hnd Ht Hon1 Hnow H0 Hmax1 Hlater)
      as (S1 & S2 & S3 & S4).
    destruct (deliver_frame _ _ _ (t1, EventsRecv e1) Hok) as (F1 & F2 & _).
    pose proof (deliver_NoDup _ _ _ (t1, EventsRecv e1) Hok Hnd) as Hnd1.
    rewrite Hlast in *.
    change (run_items (events_at ((t1, e1) :: (t2, e2) :: rest)) st)
      with (run_items (events_at ((t2, e2) :: rest))
              (deliver st (t1, EventsRecv e1))).
    cbv zeta. rewrite <- S4.
    apply IH; try assumption.
    + rewrite F2. exact Hon'.
    + rewrite S2. lia.
    + lia.
    + intros d Hd.
      assert (Hd' : In (t, d) (of_timer t (pending (rt (deliver st (t1, EventsRecv e1)))))).
      { apply of_timer_In. tauto. }
      rewrite S3 in Hd'. destruct Hd' as [[= <-]|[]]. lia.
Qed.



(** ** Setting up *)

Lemma self_indep (w : world) (st st' : state) : fst (self w st) = fst (self w st').
Proof.
  unfold self.
  destruct (os_Args w) as [|bin args]; [reflexivity|].
  destruct (filepath_IsAbs w bin); simpl; [reflexivity|].
  destruct (os_Executable w); reflexivity.
Qed.

Lemma self_cases (w : world) (st : state) :
  (exists p, self w st = (Panicked p, st)) \/ (exists r, self w st = (Ret r, st)).
Proof.
  unfold self.
  destruct (os_Args w) as [|bin args]; [left; eexists; reflexivity|].
  right. destruct (filepath_IsAbs w bin); simpl; [eexists; reflexivity|].
  destruct (os_Executable w); eexists; reflexivity.
Qed.

Lemma quiet_refl (r : runtime) : quiet r r.
Proof. repeat split; tauto. Qed.

Lemma quiet_trans (r1 r2 r3 : runtime) : quiet r1 r2 -> quiet r2 r3 -> quiet r1 r3.
Proof.
  intros (H1 & H2 & H3) (G1 & G2 & G3). repeat split; try congruence.
  - destruct (H3 H) as [Hp Hw]. destruct (G3 Hw) as [Gp _]. congruence.
  - destruct (H3 H) as [_ Hw]. apply G3, Hw.
Qed.

(** The timer [stoppedTimer] makes is not left pending. *)
Lemma stoppedTimer_run (f : func) (st : state) :
  exists r,
    stoppedTimer f st = (Ret (length (timer_f (rt st))), with_rt r st)
    /\ quiet (rt st) r.
Proof.
  eexists. split; [reflexivity|]. repeat split; simpl.
  - apply unschedule_fresh. intros Hin.
    apply in_map_iff in Hin as [e [He Hin]].
    unfold rt_wf in H. rewrite List.Forall_forall in H.
    specialize (H e Hin). lia.
  - unfold rt_wf in *. simpl. rewrite unschedule_fresh.
    + eapply Forall_impl; [exact H|]. simpl. intros e He.
      rewrite length_app. simpl. lia.
    + intros Hin. apply in_map_iff in Hin as [e [He Hin]].
      rewrite List.Forall_forall in H. specialize (H e Hin). lia.
Qed.

(** The loop over [additional] stops at the first entry it cannot watch,
    with that entry's error; otherwise every entry is in the slice with
    its absolute path and has its timer in the map.  Only timers are
    touched. *)
Lemma range_setup_spec (w : world) (additional : list dir) :
  forall (timers : gmap string nat) (st : state),
  exists r,
    quiet (rt st) r /\
    ((exists additional' timers',
        range_setup w additional timers st
          = (Ret (Ok (additional', timers')), with_rt r st)
        /\ List.Forall2 (accepted w) additional additional'
        /\ (forall k, is_Some (timers !! k) -> is_Some (timers' !! k))
        /\ Forall (fun a' => is_Some (timers' !! path a')) additional')
     \/ (exists a err,
        range_setup w additional timers st = (Ret (Err err), with_rt r st)
        /\ In a additional /\ ConfigurationError w a err)).
Proof.
  induction additional as [|a rest IH]; intros timers st.
  - exists (rt st). split; [apply quiet_refl|].
    left. exists [], timers. simpl. unfold ret.
    rewrite with_rt_id. repeat split; auto; constructor.
  - simpl. destruct (filepath_Abs w (path a)) as [p|err] eqn:Habs.
    2:{ exists (rt st). split; [apply quiet_refl|].
        right. eexists a, _. unfold ret. rewrite with_rt_id.
        split; [reflexivity|]. split; [left; reflexivity|].
        constructor; exact Habs. }
    destruct (os_Stat w p) as [s|err] eqn:Hstat.
    2:{ exists (rt st). split; [apply quiet_refl|].
        right. eexists a, _. unfold ret. rewrite with_rt_id.
        split; [reflexivity|]. split; [left; reflexivity|].
        econstructor; eassumption. }
    destruct (IsDir s) eqn:Hdir; simpl.
    2:{ exists (rt st). split; [apply quiet_refl|].
        right. eexists a, _. unfold ret. rewrite with_rt_id.
        split; [reflexivity|]. split; [left; reflexivity|].
        econstructor; eassumption. }
    destruct (stoppedTimer_run (cb a) st) as [r1 [Hstop Hq1]].
    unfold bind. rewrite Hstop.
    destruct (IH (<[p := length (timer_f (rt st))]> timers) (with_rt r1 st))
      as [r2 [Hq2 [(ad' & ts' & Hrun & Hall & Hkeys & Hok)
                  | (a' & err & Hrun & Hin & Herr)]]];
      exists r2; (split; [exact (quiet_trans _ _ _ Hq1 Hq2)|]);
      rewrite Hrun; simpl.
    + left. exists (Dir p (cb a) :: ad'), ts'. unfold ret.
      split; [reflexivity|]. split; [|split].
      * constructor; [|exact Hall]. repeat split; simpl; eauto.
      * intros k Hk. apply Hkeys.
        destruct (decide (p = k)) as [->|Hne].
        -- rewrite lookup_insert_eq. eauto.
        -- rewrite lookup_insert_ne by exact Hne. exact Hk.
      * constructor; [|exact Hok]. simpl. apply Hkeys.
        rewrite lookup_insert_eq. eauto.
    + right. exists a', err. unfold ret.
      split; [reflexivity|]. split; [right; exact Hin | exact Herr].
Qed.

(** The loop over [dirs] stops at the first directory the watcher refuses. *)
Lemma range_Add_spec (w : world) (dirs : list string) :
  forall st : state,
    (Forall (fun d => watcher_Add w d = None) dirs
     /\ range_Add w dirs st
        = (Ret None,
           with_trace (trace st ++ map (fun d => EWatcherAdd d None) dirs) st))
    \/ (exists ds d rest err,
         dirs = ds ++ d :: rest
         /\ Forall (fun d => watcher_Add w d = None) ds
         /\ watcher_Add w d = Some err
         /\ range_Add w dirs st
            = (Ret (Some (Errorf "reload.Do: cannot add %q to watcher: %w"
                                 [ArgString d; ArgError err])),
               with_trace (trace st ++ map (fun d => EWatcherAdd d None) ds
                             ++ [EWatcherAdd d (Some err)]) st)).
Proof.
  induction dirs as [|d dirs IH]; intros st; simpl.
  - left. split; [constructor|]. unfold ret. rewrite app_nil_r.
    destruct st; reflexivity.
  - unfold bind, emit, modify. destruct (watcher_Add w d) as [err|] eqn:Hadd.
    + right. exists [], d, dirs, err. simpl.
      split; [reflexivity|]. split; [constructor|]. split; [exact Hadd|].
      unfold ret, with_trace. simpl. reflexivity.
    + destruct (IH (with_trace (trace st ++ [EWatcherAdd d None]) st))
        as [[Hall Hrun] | (ds & d' & rest & err & -> & Hall & Herr & Hrun)].
      * left. split; [constructor; assumption|]. rewrite Hrun. simpl.
        unfold with_trace. simpl. rewrite <- app_assoc. reflexivity.
      * right. exists (d :: ds), d', rest, err.
        split; [reflexivity|]. split; [constructor; assumption|].
        split; [exact Herr|].
        rewrite Hrun. unfold with_trace. simpl. rewrite <- app_assoc. reflexivity.
Qed.

Lemma bind_run {A B} (m : M A) (k : A -> M B) (st st' : state) (a : A) :
  m st = (Ret a, st') -> bind m k st = k a st'.
Proof. intros H. unfold bind. rewrite H. reflexivity. Qed.

(** Every call of [Do] ends in one of the six ways of [Do_case]. *)
Lemma Do_cases (w : world) (additional : list dir) (st : state) :
  Do_case w additional st (fst (Do w additional st)) (snd (Do w additional st)).
Proof.
  destruct (Do w additional st) as [o st'] eqn:HDo. simpl fst. simpl snd.
  unfold Do in HDo.
  erewrite bind_run in HDo by reflexivity.
  destruct (fsnotify_NewWatcher w) as [err|] eqn:Hnw.
  { injection HDo as <- <-. apply Do_no_watcher, Hnw. }
  erewrite bind_run in HDo by reflexivity.
  set (st1 := with_closeWatcher (Some WatcherClose)
                (with_trace (trace st ++ [ENewWatcher]) st)) in HDo.
  destruct (self_cases w st1) as [[p Hp] | [[b e] Hr]].
  { unfold bind in HDo. rewrite Hp in HDo. injection HDo as <- <-.
    apply Do_self_panic; try reflexivity; try assumption.
    rewrite (self_indep w st st1), Hp. reflexivity. }
  rewrite (bind_run _ _ _ _ _ Hr) in HDo.
  erewrite bind_run in HDo by reflexivity.
  assert (Hself : fst (self w st) = Ret (b, e)).
  { rewrite (self_indep w st st1), Hr. reflexivity. }
  cbn [fst snd] in HDo.
  set (st2 := with_binSelf b st1) in HDo.
  destruct e as [err|]; cbn [fst snd] in HDo.
  { injection HDo as <- <-.
    apply (Do_self_error _ _ _ b); try reflexivity; assumption. }
  destruct (stoppedTimer_run FExec st2) as [r1 [Hstop Hq1]].
  cbv beta iota in HDo.
  rewrite (bind_run _ _ _ _ _ Hstop) in HDo.
  erewrite bind_run in HDo by reflexivity.
  change (binSelf (with_rt r1 st2)) with b in HDo.
  destruct (range_setup_spec w additional
              (<[b := length (timer_f (rt st2))]> ∅) (with_rt r1 st2))
    as [r2 [Hq2 [(ad' & ts' & Hrun & Hall & Hkeys & Hok)
                | (a & err & Hrun & Hin & Herr)]]];
    rewrite (bind_run _ _ _ _ _ Hrun) in HDo.
  2:{ injection HDo as <- <-.
      apply (Do_bad_dir _ _ _ b a); try reflexivity; assumption. }
  erewrite bind_run in HDo by reflexivity.
  erewrite bind_run in HDo by reflexivity.
  set (st3 := with_loop _ _) in HDo.
  assert (Hok3 : loop_ok ts' ad' st3).
  { split.
    - reflexivity.
    - apply Hkeys. simpl. rewrite lookup_insert_eq. eauto.
    - exact Hok.
    - left. reflexivity. }
  destruct (range_Add_spec w (filepath_Dir w b :: map path ad') st3)
    as [[Hadds Hadd] | (ds & d & rest & err & Hdirs & Hadds & Herr & Hadd)];
    rewrite (bind_run _ _ _ _ _ Hadd) in HDo.
  2:{ injection HDo as <- <-.
      apply (Do_add_failed _ _ _ b ad' ts' ds d rest); try assumption;
        try reflexivity.
      - destruct Hok3 as [H1 H2 H3 H4]. split; assumption.
      - simpl. rewrite <- !app_assoc. reflexivity. }
  erewrite bind_run in HDo by reflexivity.
  erewrite bind_run in HDo by reflexivity.
  unfold Do_wait, bind, recv_done in HDo. simpl in HDo.
  injection HDo as <- <-.
  apply (Do_blocked _ _ _ b ad' ts'); try assumption; try reflexivity.
  - destruct Hok3 as [H1 H2 H3 H4]. split; assumption.
  - exact (quiet_trans _ _ _ Hq1 Hq2).
Qed.

(** [Do] leaves nothing pending that was not before: the timers it makes
    are stopped. *)
Lemma Do_blocked_pending (w : world) (additional : list dir) (st : state) :
  fst (Do w additional st) = Blocked ->
  rt_wf (rt st) ->
  pending (rt (snd (Do w additional st))) = pending (rt st).
Proof.
  pose proof (Do_cases w additional st) as Hcase.
  destruct (Do w additional st) as [o st1]. simpl. intros -> Hwf.
  inversion Hcase as [| | | | |b ad' ts st2 Hnw Hself Hall Hadds Hok Hrun Hb Hdone Hq];
    subst.
  destruct Hq as (_ & _ & Hq). apply Hq, Hwf.
Qed.

(** ** What [Do] gives back *)

(** Against C2 as stated.  The stream closes: the goroutine leaves its
    loop, and [Do] is where it was, waiting on [done]. *)
Lemma Do_still_blocked_after_close :
  fst (Do Sample.w [Sample.tpl] initial_state) = Blocked
  /\ status SampleLoop.closed_events = Some Exited
  /\ fst (Do_wait SampleLoop.closed_events) = Blocked
  /\ status SampleLoop.closed_errors = Some Exited
  /\ fst (Do_wait SampleLoop.closed_errors) = Blocked.
Proof. vm_compute. repeat split; reflexivity. Qed.

Lemma Do_wait_blocked (st : state) :
  done st = Some fresh_chan -> fst (Do_wait st) = Blocked.
Proof. intros H. unfold Do_wait, bind, recv_done. rewrite H. reflexivity. Qed.

Lemma closed_exits (timers : gmap string nat) (additional : list dir)
    (st : state) (T : Z) (c : item) :
  loop_ok timers additional st ->
  c = ErrorsClosed \/ c = EventsClosed ->
  status (deliver st (T, c)) = Some Exited.
Proof.
  intros Hok Hc. unfold deliver. simpl fst. simpl snd.
  pose proof (loop_ok_advance _ _ T _ Hok) as Hok'.
  destruct Hok as [_ _ _ [Hrun|Hex]].
  - rewrite (goroutine_step_running timers additional) by assumption.
    destruct Hc as [->| ->]; reflexivity.
  - rewrite goroutine_step_exited by exact Hex. exact Hex.
Qed.

(** C2, as the code has it.  [Do] never returns [nil]: it gives back an
    initialisation error or it blocks on [done].  Once it blocks, whatever
    the goroutine receives afterwards, [Do] is still blocked, since nothing
    sends on [done] or closes it; when the events or the errors channel is
    closed, it is the goroutine that returns. *)
Theorem goroutine_returns_Do_stays_blocked (w : world) (additional : list dir)
    (st : state) :
  fst (Do w additional st) <> Ret None
  /\ (fst (Do w additional st) = Blocked ->
      forall items : list (Z * item),
        let st' := run_items items (snd (Do w additional st)) in
        fst (Do_wait st') = Blocked
        /\ forall (T : Z) (c : item),
             c = ErrorsClosed \/ c = EventsClosed ->
             status (deliver st' (T, c)) = Some Exited
             /\ fst (Do_wait (deliver st' (T, c))) = Blocked).
Proof.
  pose proof (Do_cases w additional st) as Hcase.
  destruct (Do w additional st) as [o st1]. simpl in *.
  split.
  - inversion Hcase; discriminate.
  - intros ->. inversion Hcase as [| | | | |b ad' ts st2 Hnw Hself Hall Hadds Hok Hrun Hb Hdone];
      subst.
    intros items. set (st' := run_items items st1).
    destruct (run_items_frame ts ad' items st1 Hok) as (Hok' & _ & Hdone' & _).
    fold st' in Hok', Hdone'. split.
    + apply Do_wait_blocked. rewrite Hdone'. exact Hdone.
    + intros T c Hc. split.
      * apply (closed_exits ts ad'); assumption.
      * destruct (deliver_frame ts ad' st' (T, c) Hok') as (_ & _ & Hd & _).
        apply Do_wait_blocked. rewrite Hd, Hdone'. exact Hdone.
Qed.

Lemma goroutine_returns_Do_stays_blocked_witness :
  fst (Do_wait SampleLoop.after_write) = Blocked
  /\ forall (T : Z) (c : item),
       c = ErrorsClosed \/ c = EventsClosed ->
       status (deliver SampleLoop.after_write (T, c)) = Some Exited
       /\ fst (Do_wait (deliver SampleLoop.after_write (T, c))) = Blocked.
Proof.
  apply (proj2 (goroutine_returns_Do_stays_blocked Sample.w [Sample.tpl] initial_state)).
  vm_compute. reflexivity.
Defined.

(** ** Directories that cannot be watched *)

Lemma ConfigurationError_not_watchable (w : world) (a : dir) (err : error)
    (p : string) :
  ConfigurationError w a err -> watchable w a p -> False.
Proof.
  intros Herr [Habs (s & Hstat & Hdir)].
  inversion Herr as [e He | q e Hq He | q s' Hq Hs Hd]; subst.
  - congruence.
  - rewrite Habs in Hq. injection Hq as <-. congruence.
  - rewrite Habs in Hq. injection Hq as <-.
    rewrite Hstat in Hs. injection Hs as <-. congruence.
Qed.

Lemma accepted_paths (w : world) (additional additional' : list dir)
    (ps : list string) :
  List.Forall2 (accepted w) additional additional' ->
  List.Forall2 (watchable w) additional ps ->
  map path additional' = ps.
Proof.
  intros Hacc. revert ps.
  induction Hacc as [|a a' l l' [[Habs _] _] Hrest IH]; intros ps Hw;
    inversion Hw as [|x p xs ps' [Habs' _] Hw']; subst; simpl.
  - reflexivity.
  - rewrite Habs in Habs'. injection Habs' as <-. rewrite (IH _ Hw'). reflexivity.
Qed.

Lemma accepted_all_watchable (w : world) (additional additional' : list dir) (a : dir) :
  List.Forall2 (accepted w) additional additional' ->
  In a additional ->
  exists p, watchable w a p.
Proof.
  induction 1 as [|x x' l l' [Hw _] Hrest IH]; simpl; intros Hin; [tauto|].
  destruct Hin as [<-|Hin]; eauto.
Qed.

(** C7.  When some entry of [additional] has no absolute path, does not
    exist or is not a directory, [Do] has called neither [watcher.Add] nor
    [go]: all it did is make the watcher.  If making the watcher and
    finding the executable succeeded, what [Do] returns is the error of
    such an entry. *)
Theorem Do_rejects_bad_directory (w : world) (additional : list dir) (st : state) :
  Exists (fun a => ~ exists p, watchable w a p) additional ->
  (trace (snd (Do w additional st)) = trace st ++ [ENewWatcher]
   /\ loop (snd (Do w additional st)) = loop st)
  /\ (fsnotify_NewWatcher w = None ->
      (exists b, fst (self w st) = Ret (b, None)) ->
      exists a err,
        In a additional /\ ConfigurationError w a err
        /\ fst (Do w additional st) = Ret (Some err)).
Proof.
  intros Hbad.
  apply List.Exists_exists in Hbad as [bad [Hin Hbad]].
  pose proof (Do_cases w additional st) as Hcase.
  destruct (Do w additional st) as [o st1]. simpl in *.
  inversion Hcase as
    [ err Hnw
    | p st2 Hnw Hself Htr Hloop
    | s err st2 Hnw Hself Htr Hloop
    | b a err st2 Hnw Hself Ha Herr Htr Hloop
    | b ad' ts ds d rest err st2 Hnw Hself Hall
    | b ad' ts st2 Hnw Hself Hall ]; subst.
  - split; [split; reflexivity|]. intros Hnw'. congruence.
  - split; [split; assumption|]. intros _ [b Hb]. congruence.
  - split; [split; assumption|]. intros _ [b Hb]. congruence.
  - split; [split; assumption|]. intros _ _. exists a, err. auto.
  - exfalso. apply Hbad. eapply accepted_all_watchable; eassumption.
  - exfalso. apply Hbad. eapply accepted_all_watchable; eassumption.
Qed.

Lemma Do_rejects_bad_directory_witness :
  (trace (snd (Do Sample.w [Sample.tpl; Sample.missing] initial_state)) = [ENewWatcher]
   /\ loop (snd (Do Sample.w [Sample.tpl; Sample.missing] initial_state)) = None)
  /\ exists a err,
       In a [Sample.tpl; Sample.missing] /\ ConfigurationError Sample.w a err
       /\ fst (Do Sample.w [Sample.tpl; Sample.missing] initial_state) = Ret (Some err).
Proof.
  assert (Hbad : Exists (fun a => ~ exists p, watchable Sample.w a p)
                   [Sample.tpl; Sample.missing]).
  { apply Exists_cons_tl, Exists_cons_hd.
    intros [p [Habs (s & Hstat & Hdir)]].
    injection Habs as <-. discriminate Hstat. }
  destruct (Do_rejects_bad_directory Sample.w [Sample.tpl; Sample.missing]
              initial_state Hbad) as [Hnone Herr].
  split; [exact Hnone|].
  apply Herr; [reflexivity | exists "/app/server"%string; reflexivity].
Defined.

(** ** A directory the watcher refuses *)

(** Against C8 as stated.  The watcher refuses the second directory: [Do]
    returns the error, and the goroutine it started before is in its loop,
    with the first directory watched. *)
Lemma Do_add_error_goroutine_running :
  fst SampleLoop.refused = Ret (Some (Errorf "reload.Do: cannot add %q to watcher: %w"
                       [ArgString "/app/tpl";
                        ArgError (ErrExternal "no space left on device")]))
  /\ status (snd SampleLoop.refused) = Some Running
  /\ trace (snd SampleLoop.refused) =
       [ENewWatcher; EGo; EWatcherAdd "/app" None;
        EWatcherAdd "/app/tpl" (Some (ErrExternal "no space left on device"))].
Proof. vm_compute. repeat split; reflexivity. Qed.

(** C8, as the code has it.  When [watcher.Add] fails for one of the
    directories, [Do] returns that failure, wrapped, for the first such
    directory; the goroutine was started before the first [Add] and is
    still in its loop when [Do] returns. *)
Theorem Do_add_error_returned (w : world) (additional : list dir) (st : state)
    (b : string) (ps : list string) :
  fsnotify_NewWatcher w = None ->
  fst (self w st) = Ret (b, None) ->
  List.Forall2 (watchable w) additional ps ->
  Exists (fun d => watcher_Add w d <> None) (filepath_Dir w b :: ps) ->
  exists ds d rest err,
    filepath_Dir w b :: ps = ds ++ d :: rest
    /\ Forall (fun d => watcher_Add w d = None) ds
    /\ watcher_Add w d = Some err
    /\ fst (Do w additional st)
       = Ret (Some (Errorf "reload.Do: cannot add %q to watcher: %w"
                           [ArgString d; ArgError err]))
    /\ status (snd (Do w additional st)) = Some Running
    /\ trace (snd (Do w additional st))
       = trace st ++ [ENewWatcher; EGo]
           ++ map (fun d => EWatcherAdd d None) ds ++ [EWatcherAdd d (Some err)].
Proof.
  intros Hnw Hself Hw Hfail.
  pose proof (Do_cases w additional st) as Hcase.
  destruct (Do w additional st) as [o st1]. simpl in *.
  inversion Hcase as
    [ err Hnw'
    | p st2 Hnw' Hself' Htr Hloop
    | s err st2 Hnw' Hself' Htr Hloop
    | b' a err st2 Hnw' Hself' Ha Herr Htr Hloop
    | b' ad' ts ds d rest err st2 Hnw' Hself' Hall Hdirs Hadds Hadd Hok Hrun Hb Htr
    | b' ad' ts st2 Hnw' Hself' Hall Hadds ]; subst; try congruence.
  - exfalso.
    assert (Hex : exists p, watchable w a p).
    { clear - Hw Ha. induction Hw as [|x p l l' Hx Hrest IH]; simpl in Ha; [tauto|].
      destruct Ha as [<-|Ha]; eauto. }
    destruct Hex as [p Hp]. eapply ConfigurationError_not_watchable; eassumption.
  - assert (Hb : binSelf st1 = b) by congruence.
    rewrite Hb, (accepted_paths _ _ _ _ Hall Hw) in Hdirs.
    exists ds, d, rest, err. auto 10.
  - exfalso.
    assert (Hb : binSelf st1 = b) by congruence.
    rewrite Hb, (accepted_paths _ _ _ _ Hall Hw) in Hadds.
    apply List.Exists_exists in Hfail as [d [Hin Hd]].
    rewrite List.Forall_forall in Hadds. apply Hd, Hadds, Hin.
Qed.

Lemma Do_add_error_returned_witness :
  exists ds d rest err,
    ["/app"; "/app/tpl"]%string = ds ++ d :: rest
    /\ Forall (fun d => watcher_Add Sample.denied d = None) ds
    /\ watcher_Add Sample.denied d = Some err
    /\ fst (Do Sample.denied [Sample.tpl] initial_state)
       = Ret (Some (Errorf "reload.Do: cannot add %q to watcher: %w"
                           [ArgString d; ArgError err]))
    /\ status (snd (Do Sample.denied [Sample.tpl] initial_state)) = Some Running
    /\ trace (snd (Do Sample.denied [Sample.tpl] initial_state))
       = [ENewWatcher; EGo]
           ++ map (fun d => EWatcherAdd d None) ds ++ [EWatcherAdd d (Some err)].
Proof.
  apply (Do_add_error_returned Sample.denied [Sample.tpl] initial_state
           "/app/server" ["/app/tpl"%string]).
  - reflexivity.
  - reflexivity.
  - repeat constructor. exists {| IsDir := true |}. split; reflexivity.
  - apply Exists_cons_tl, Exists_cons_hd. discriminate.
Defined.

(** * Further properties *)

(** ** More on [Exec] *)

(** [Exec] with a cached path and no argument vector. *)
Lemma Exec_cached_no_args_run (w : world) (st : state) :
  os_Args w = [] ->
  binSelf st <> EmptyString ->
  Exec w st =
    (Panicked (PanicRuntime "slice bounds out of range [1:0]"),
     with_trace (trace st ++ close_step w st ++ hook_step st) st).
Proof.
  intros Hargs Hne. unfold Exec, bind, gets, close_step, hook_step.
  apply String.eqb_neq in Hne. rewrite Hne.
  unfold Args_from_1, call_closer, bind, emit, modify, ret, panic. rewrite Hargs.
  destruct st as [bs cw oe r l d tr]; simpl in *.
  destruct cw as [[]|], oe as [h|]; simpl; unfold with_trace; simpl;
    rewrite <- ?app_assoc, ?app_nil_r; reflexivity.
Qed.

(** [Exec] when the path is neither cached nor found. *)
Lemma Exec_unresolved_run (w : world) (st : state) :
  binSelf st = EmptyString ->
  (forall name, fst (self w st) <> Ret (name, None)) ->
  snd (Exec w st) = st /\ exists p, fst (Exec w st) = Panicked p.
Proof.
  intros Hempty Hnone. unfold Exec, bind, gets. rewrite Hempty. simpl.
  destruct (self_cases w st) as [[p Hp] | [[name [err|]] Hr]].
  - rewrite Hp. simpl. eauto.
  - rewrite Hr. simpl. unfold panic. simpl. eauto.
  - exfalso. apply (Hnone name). rewrite Hr. reflexivity.
Qed.

(** X2.  When nothing is cached and [self] does not find the executable,
    [Exec] panics before it has done anything: the watcher is not closed,
    the hook has not run, and no state has changed. *)
Theorem Exec_unresolved_does_nothing (w : world) (st : state) :
  binSelf st = EmptyString ->
  (forall name, fst (self w st) <> Ret (name, None)) ->
  snd (Exec w st) = st /\ exists p, fst (Exec w st) = Panicked p.
Proof. apply Exec_unresolved_run. Qed.

Lemma Exec_unresolved_does_nothing_witness :
  snd (Exec SampleExec.lost SampleExec.manual) = SampleExec.manual
  /\ exists p, fst (Exec SampleExec.lost SampleExec.manual) = Panicked p.
Proof.
  apply (Exec_unresolved_does_nothing SampleExec.lost SampleExec.manual).
  - reflexivity.
  - intros name. discriminate.
Defined.

(** X3.  With an empty [os.Args] and a cached path, [os.Args[1:]] is out
    of range: [Exec] has closed the watcher and run the hook by then, and
    panics without calling [syscall.Exec]. *)
Theorem Exec_without_args_panics_after_cleanup (w : world) (st : state) :
  os_Args w = [] ->
  binSelf st <> EmptyString ->
  fst (Exec w st) = Panicked (PanicRuntime "slice bounds out of range [1:0]")
  /\ trace (snd (Exec w st)) = trace st ++ close_step w st ++ hook_step st
  /\ exec_calls (trace (snd (Exec w st))) = exec_calls (trace st).
Proof.
  intros Hargs Hne. rewrite (Exec_cached_no_args_run w st Hargs Hne). simpl.
  repeat split. rewrite !exec_calls_app.
  assert (Hclose : exec_calls (close_step w st) = []).
  { unfold close_step. destruct (closeWatcher st); reflexivity. }
  assert (Hhook : exec_calls (hook_step st) = []).
  { unfold hook_step. destruct (OnExec st); reflexivity. }
  rewrite Hclose, Hhook, app_nil_r. reflexivity.
Qed.

Lemma Exec_without_args_panics_after_cleanup_witness :
  fst (Exec SampleMore.no_args SampleMore.cached)
    = Panicked (PanicRuntime "slice bounds out of range [1:0]")
  /\ trace (snd (Exec SampleMore.no_args SampleMore.cached))
     = [] ++ close_step SampleMore.no_args SampleMore.cached
          ++ hook_step SampleMore.cached
  /\ exec_calls (trace (snd (Exec SampleMore.no_args SampleMore.cached))) = [].
Proof.
  apply (Exec_without_args_panics_after_cleanup SampleMore.no_args SampleMore.cached).
  - reflexivity.
  - discriminate.
Defined.

(** X4.  Once the path is known, what [Exec] ends in is decided by
    [syscall.Exec] alone: the process is replaced exactly when that call
    does not come back, and [Exec] panics otherwise. *)
Theorem Exec_replaces_iff_syscall_succeeds (w : world) (st : state)
    (name a0 : string) (rest : list string) :
  exec_name w st name ->
  os_Args w = a0 :: rest ->
  (fst (Exec w st) = Replaced
   <-> syscall_Exec w name (name :: rest) (os_Environ w) = None)
  /\ (fst (Exec w st) = Replaced \/ exists p, fst (Exec w st) = Panicked p).
Proof.
  intros Hname Hargs. rewrite (Exec_run w st name a0 rest Hname Hargs).
  destruct (syscall_Exec w name (name :: rest) (os_Environ w)) as [err|]; simpl.
  - split; [split; discriminate | right; eauto].
  - split; [tauto | left; reflexivity].
Qed.

Lemma exec_name_cached_sample :
  exec_name SampleMore.replaces SampleMore.cached "/app/server".
Proof. apply (exec_name_cached SampleMore.replaces SampleMore.cached). discriminate. Defined.

Lemma Exec_replaces_iff_syscall_succeeds_witness :
  (fst (Exec SampleMore.replaces SampleMore.cached) = Replaced
   <-> syscall_Exec SampleMore.replaces "/app/server" ["/app/server"; "-v"]%string
         (os_Environ SampleMore.replaces) = None)
  /\ (fst (Exec SampleMore.replaces SampleMore.cached) = Replaced
      \/ exists p, fst (Exec SampleMore.replaces SampleMore.cached) = Panicked p).
Proof.
  exact (Exec_replaces_iff_syscall_succeeds SampleMore.replaces SampleMore.cached
           "/app/server" "/app/server" ["-v"%string] exec_name_cached_sample eq_refl).
Defined.

(** X1.  [Exec] ends in one of two ways, whatever the state and the
    system: the process image is replaced, or [Exec] panics.  It neither
    returns to its caller nor waits. *)
Theorem Exec_ends_replaced_or_panics (w : world) (st : state) :
  fst (Exec w st) = Replaced \/ exists p, fst (Exec w st) = Panicked p.
Proof.
  destruct (String.eqb_spec (binSelf st) EmptyString) as [Hempty|Hne].
  - destruct (self_cases w st) as [[p Hp] | [[name [err|]] Hr]].
    + right. apply Exec_unresolved_run; [exact Hempty|].
      intros n. rewrite Hp. discriminate.
    + right. apply Exec_unresolved_run; [exact Hempty|].
      intros n. rewrite Hr. discriminate.
    + assert (Hname : exec_name w st name).
      { apply exec_name_fresh; [exact Hempty | rewrite Hr; reflexivity]. }
      destruct (os_Args w) as [|a0 rest] eqn:Hargs.
      { unfold self in Hr. rewrite Hargs in Hr. discriminate. }
      rewrite (Exec_run w st name a0 rest Hname Hargs).
      destruct (syscall_Exec w name (name :: rest) (os_Environ w));
        [right; eexists; reflexivity | left; reflexivity].
  - destruct (os_Args w) as [|a0 rest] eqn:Hargs.
    + rewrite (Exec_cached_no_args_run w st Hargs Hne). right. eexists. reflexivity.
    + rewrite (Exec_run w st (binSelf st) a0 rest (exec_name_cached w st Hne) Hargs).
      destruct (syscall_Exec w (binSelf st) (binSelf st :: rest) (os_Environ w));
        [right; eexists; reflexivity | left; reflexivity].
Qed.

(** ** [relpath] *)

Lemma length_append (a b : string) :
  String.length (a ++ b) = (String.length a + String.length b)%nat.
Proof. induction a as [|c a IH]; simpl; [reflexivity | rewrite IH; reflexivity]. Qed.

Lemma substring_all (s : string) : substring 0 (String.length s) s = s.
Proof. induction s as [|c s IH]; simpl; [reflexivity | rewrite IH; reflexivity]. Qed.

Lemma substring_skip (a b : string) (n : nat) :
  substring (String.length a) n (a ++ b) = substring 0 n b.
Proof. induction a as [|c a IH]; simpl; [reflexivity | exact IH]. Qed.

(** [strings.HasPrefix] holds exactly of the strings that continue the
    prefix. *)
Lemma HasPrefix_spec (s p : string) :
  HasPrefix s p = true <-> exists suffix, s = (p ++ suffix)%string.
Proof.
  split.
  - unfold HasPrefix. revert s. induction p as [|c p IH]; intros s H.
    + exists s. reflexivity.
    + destruct s as [|c' s]; simpl in H; [discriminate|].
      apply andb_true_iff in H as [Hlen Heq].
      destruct (Ascii.eqb_spec c' c) as [->|Hne]; [|discriminate].
      destruct (IH s) as [suffix ->].
      * apply andb_true_iff. split; assumption.
      * exists suffix. reflexivity.
  - intros [suffix ->]. apply HasPrefix_app.
Qed.

Lemma TrimLeft_slash_spec (s : string) :
  starts_with_slash (TrimLeft_slash s) = false
  /\ exists n, s = (slashes n ++ TrimLeft_slash s)%string.
Proof.
  induction s as [|c s [IH1 [n IH2]]]; simpl.
  - split; [reflexivity | exists O; reflexivity].
  - destruct (Ascii.eqb_spec c "/"%char) as [->|Hne].
    + split; [exact IH1|]. exists (S n).
      change (String "/" s = String "/" (slashes n ++ TrimLeft_slash s)).
      f_equal. exact IH2.
    + split.
      * simpl. apply Ascii.eqb_neq, Hne.
      * exists O. reflexivity.
Qed.

(** X6.  A path that continues the working directory is shown as [./]
    and what follows, without the slashes that follow directly; the path
    need not continue at a separator. *)
Theorem relpath_under_cwd (w : world) (cwd suffix : string) :
  os_Getwd w = Ok cwd ->
  relpath w (cwd ++ suffix) = ("./" ++ TrimLeft_slash suffix)%string
  /\ starts_with_slash (TrimLeft_slash suffix) = false
  /\ exists n, suffix = (slashes n ++ TrimLeft_slash suffix)%string.
Proof.
  intros Hcwd. split; [|apply TrimLeft_slash_spec].
  unfold relpath. rewrite Hcwd, HasPrefix_app, substring_skip, length_append.
  replace (String.length cwd + String.length suffix - String.length cwd)%nat
    with (String.length suffix) by lia.
  rewrite substring_all. reflexivity.
Qed.

Lemma relpath_under_cwd_witness :
  relpath Sample.w ("/app" ++ "//tpl/x") = ("./" ++ TrimLeft_slash "//tpl/x")%string
  /\ starts_with_slash (TrimLeft_slash "//tpl/x") = false
  /\ exists n, "//tpl/x"%string = (slashes n ++ TrimLeft_slash "//tpl/x")%string.
Proof. apply (relpath_under_cwd Sample.w "/app" "//tpl/x"). reflexivity. Defined.

(** X7.  A path is shown as it is when the working directory is not known
    or does not begin it. *)
Theorem relpath_elsewhere (w : world) (p : string) :
  (forall cwd suffix, os_Getwd w = Ok cwd -> p <> (cwd ++ suffix)%string) ->
  relpath w p = p.
Proof.
  intros Hout. unfold relpath. destruct (os_Getwd w) as [cwd|err]; [|reflexivity].
  destruct (HasPrefix p cwd) eqn:Hpre; [|reflexivity].
  apply HasPrefix_spec in Hpre as [suffix Hp].
  exfalso. exact (Hout cwd suffix eq_refl Hp).
Qed.

Lemma relpath_elsewhere_witness : relpath Sample.w "/etc/motd" = "/etc/motd"%string.
Proof.
  apply (relpath_elsewhere Sample.w "/etc/motd").
  intros cwd suffix [= <-]. discriminate.
Defined.

(** ** More on the goroutine *)

Lemma range_additional_none (event : Event) (timers : gmap string nat)
    (additional : list dir) (st : state) :
  Forall (fun a => HasPrefix (Name event) (path a) = false) additional ->
  range_additional event timers additional st = (Ret tt, st).
Proof.
  induction 1 as [|a rest Ha Hrest IH]; simpl; [reflexivity|].
  unfold bind. rewrite Ha. simpl. exact IH.
Qed.

Lemma silent_step (event : Event) (st : state) :
  (forall g, loop st = Some g -> silent (binSelf st) (g_additional g) event) ->
  goroutine_step (EventsRecv event) st = st.
Proof.
  intros Hsilent. unfold goroutine_step.
  destruct (loop st) as [g|]; [|reflexivity].
  destruct (g_status g); try reflexivity.
  unfold loop_body, on_event, bind, gets.
  destruct (Hsilent g eq_refl) as [Htr | [Hne Hnone]].
  - unfold trigger in Htr. rewrite Htr. reflexivity.
  - destruct (Event_Has event fsnotify_Write || Event_Has event fsnotify_Create);
      simpl; [|reflexivity].
    apply String.eqb_neq in Hne. rewrite Hne. simpl.
    rewrite (range_additional_none _ _ _ _ Hnone). reflexivity.
Qed.

(** X8.  An event whose name is not the executable's and does not begin
    with the path of any watched directory changes nothing, whatever its
    kind: no timer is looked up and none is armed. *)
Theorem unmatched_event_arms_nothing (event : Event) (st : state) :
  Name event <> binSelf st ->
  (forall g, loop st = Some g ->
     Forall (fun a => HasPrefix (Name event) (path a) = false) (g_additional g)) ->
  goroutine_step (EventsRecv event) st = st.
Proof.
  intros Hne Hnone. apply silent_step. intros g Hg. right. auto.
Qed.

Lemma unmatched_event_arms_nothing_witness :
  goroutine_step (EventsRecv SampleMore.elsewhere) SampleLoop.st_tpl = SampleLoop.st_tpl.
Proof.
  apply (unmatched_event_arms_nothing SampleMore.elsewhere SampleLoop.st_tpl).
  - discriminate.
  - intros g Hg. vm_compute in Hg. injection Hg as <-. repeat constructor.
Defined.

(** X9.  An event touches the timers of the keys it matches and no other:
    a timer that is neither the executable's when the name is the
    executable's, nor that of a directory whose path begins the name,
    keeps its pending entry, and nothing runs. *)
Theorem event_leaves_other_timers (timers : gmap string nat)
    (additional : list dir) (st : state) (event : Event) (t : nat) :
  loop_ok timers additional st ->
  status st = Some Running ->
  (Name event = binSelf st -> timers !! binSelf st <> Some t) ->
  (forall a, In a additional -> HasPrefix (Name event) (path a) = true ->
             timers !! path a <> Some t) ->
  of_timer t (pending (rt (goroutine_step (EventsRecv event) st)))
    = of_timer t (pending (rt st))
  /\ fired (rt (goroutine_step (EventsRecv event) st)) = fired (rt st).
Proof.
  intros Hok Hrun Hself Hadd.
  rewrite (goroutine_step_running timers additional) by assumption. simpl.
  split; [|apply resets_frame].
  apply resets_other. unfold event_ids.
  destruct (trigger event); [|simpl; tauto].
  intros Hin. apply list_elem_of_In, list_elem_of_omap in Hin as [k [Hk Ht]].
  apply list_elem_of_In in Hk. unfold matched_keys in Hk.
  apply in_app_or in Hk as [Hk|Hk].
  - destruct (String.eqb_spec (Name event) (binSelf st)) as [Heq|Hne];
      [|destruct Hk].
    destruct Hk as [<-|[]]. exact (Hself Heq Ht).
  - apply in_map_iff in Hk as [a [<- Ha]]. apply List.filter_In in Ha as [Ha Hpre].
    exact (Hadd a Ha Hpre Ht).
Qed.

Lemma event_leaves_other_timers_witness :
  of_timer 0 (pending (rt (goroutine_step (EventsRecv SampleMore.in_tpl)
                             SampleLoop.st_tpl)))
    = of_timer 0 (pending (rt SampleLoop.st_tpl))
  /\ fired (rt (goroutine_step (EventsRecv SampleMore.in_tpl) SampleLoop.st_tpl))
     = fired (rt SampleLoop.st_tpl).
Proof.
  apply (event_leaves_other_timers SampleLoop.timers_tpl [Dir "/a/tpl" (FUser 7)]).
  - exact loop_ok_tpl.
  - reflexivity.
  - discriminate.
  - intros a [<-|[]] _. vm_compute. discriminate.
Defined.

Lemma ticks_app (l1 l2 : list (Z * item)) (st : state) :
  ticks (l1 ++ l2) st = ticks l2 (ticks l1 st).
Proof. apply fold_left_app. Qed.

Lemma advance_status (T : Z) (st : state) : status (advance T st) = status st.
Proof. reflexivity. Qed.

(** X10.  Errors of the watcher are logged, one line each and in order,
    and the loop goes on: the goroutine is still running and the timers
    have seen nothing but the clock. *)
Theorem errors_are_logged_and_loop_goes_on (errs : list (Z * error)) :
  forall st : state,
  status st = Some Running ->
  status (run_items (errors_at errs) st) = Some Running
  /\ trace (run_items (errors_at errs) st)
     = trace st ++ map (fun te => ELog (Sprintf "reload error: %v" [ArgError (snd te)]))
                     errs
  /\ rt (run_items (errors_at errs) st) = rt (ticks (errors_at errs) st).
Proof.
  induction errs as [|[T err] errs IH]; intros st Hrun.
  - simpl. rewrite app_nil_r. auto.
  - assert (Hstep : deliver st (T, ErrorsRecv err)
              = with_trace (trace st ++ [ELog (Sprintf "reload error: %v" [ArgError err])])
                  (advance T st)).
    { unfold deliver, goroutine_step, status in *. simpl.
      destruct (loop st) as [g|]; [|discriminate].
      injection Hrun as ->. reflexivity. }
    change (run_items (errors_at ((T, err) :: errs)) st)
      with (run_items (errors_at errs) (deliver st (T, ErrorsRecv err))).
    change (ticks (errors_at ((T, err) :: errs)) st)
      with (ticks (errors_at errs) (advance T st)).
    rewrite Hstep.
    destruct (IH (with_trace (trace st ++ [ELog (Sprintf "reload error: %v" [ArgError err])])
                    (advance T st)) Hrun) as (H1 & H2 & H3).
    rewrite H1, H2, H3. simpl. rewrite <- app_assoc. repeat split.
    clear. generalize (advance T st). intros s.
    generalize (trace st ++ [ELog (Sprintf "reload error: %v" [ArgError err])]).
    intros tr. revert s. induction (errors_at errs) as [|ti l IHl]; intros s.
    + reflexivity.
    + simpl. exact (IHl (advance ti.1 s)).
Qed.

Lemma errors_are_logged_and_loop_goes_on_witness :
  status (run_items (errors_at [(2, ErrExternal "overflow")]) SampleLoop.blocked)
    = Some Running
  /\ trace (run_items (errors_at [(2, ErrExternal "overflow")]) SampleLoop.blocked)
     = trace SampleLoop.blocked
         ++ map (fun te => ELog (Sprintf "reload error: %v" [ArgError (snd te)]))
              [(2, ErrExternal "overflow")]
  /\ rt (run_items (errors_at [(2, ErrExternal "overflow")]) SampleLoop.blocked)
     = rt (ticks (errors_at [(2, ErrExternal "overflow")]) SampleLoop.blocked).
Proof.
  apply (errors_are_logged_and_loop_goes_on [(2, ErrExternal "overflow")]
           SampleLoop.blocked).
  reflexivity.
Defined.






Lemma deliver_silent (timers : gmap string nat) (additional : list dir)
    (st : state) (ti : Z * item) :
  loop_ok timers additional st ->
  silent_item (binSelf st) additional ti ->
  rt (deliver st ti) = advance_rt (fst ti) (rt st).
Proof.
  intros Hok Hsilent. unfold deliver.
  pose proof (loop_ok_advance _ _ ti.1 _ Hok) as Hok'.
  destruct ti as [T [err| |event|]]; simpl in *.
  - destruct Hok as [_ _ _ [Hrun|Hex]].
    + rewrite (goroutine_step_running timers additional) by assumption. reflexivity.
    + rewrite goroutine_step_exited by exact Hex. reflexivity.
  - destruct Hok as [_ _ _ [Hrun|Hex]].
    + rewrite (goroutine_step_running timers additional) by assumption. reflexivity.
    + rewrite goroutine_step_exited by exact Hex. reflexivity.
  - rewrite silent_step; [reflexivity|].
    intros g Hg. destruct Hok' as [Hcl _ _ _]. unfold closure in Hcl.
    rewrite Hg in Hcl. injection Hcl as _ ->. exact Hsilent.
  - destruct Hok as [_ _ _ [Hrun|Hex]].
    + rewrite (goroutine_step_running timers additional) by assumption. reflexivity.
    + rewrite goroutine_step_exited by exact Hex. reflexivity.
Qed.

Lemma ticks_nothing_pending (items : list (Z * item)) :
  forall st : state,
  pending (rt st) = [] ->
  pending (rt (ticks items st)) = [] /\ fired (rt (ticks items st)) = fired (rt st).
Proof.
  induction items as [|ti items IH]; intros st Hnone; [auto|].
  change (ticks (ti :: items) st) with (ticks items (advance (fst ti) st)).
  destruct (IH (advance (fst ti) st)) as [H1 H2].
  - simpl. rewrite Hnone. reflexivity.
  - rewrite H1, H2. simpl. rewrite Hnone. simpl. rewrite app_nil_r. auto.
Qed.

(** X12.  Items that match nothing (errors, closed channels, events that
    are silent) leave the timers to the clock; with nothing pending at the
    start, nothing ever runs, however long one waits. *)
Theorem silent_items_fire_nothing (timers : gmap string nat)
    (additional : list dir) (items : list (Z * item)) :
  forall st : state,
  loop_ok timers additional st ->
  Forall (silent_item (binSelf st) additional) items ->
  rt (run_items items st) = rt (ticks items st)
  /\ (pending (rt st) = [] ->
      forall T, fired (rt (advance T (run_items items st))) = fired (rt st)).
Proof.
  assert (Hrt : forall items st,
             loop_ok timers additional st ->
             Forall (silent_item (binSelf st) additional) items ->
             rt (run_items items st) = rt (ticks items st)).
  { clear items. induction items as [|ti items IH]; intros st Hok Hall; [reflexivity|].
    inversion Hall as [|x l Hti Hrest]; subst.
    change (run_items (ti :: items) st) with (run_items items (deliver st ti)).
    change (ticks (ti :: items) st) with (ticks items (advance (fst ti) st)).
    destruct (deliver_frame _ _ _ ti Hok) as (Hok1 & Hb & _).
    rewrite IH; [|exact Hok1|rewrite Hb; exact Hrest].
    pose proof (deliver_silent _ _ _ ti Hok Hti) as Hd.
    clear - Hd. change (advance_rt ti.1 (rt st)) with (rt (advance ti.1 st)) in Hd.
    revert Hd. generalize (deliver st ti), (advance ti.1 st). intros s1 s2 Hs.
    revert s1 s2 Hs. induction items as [|tj l IHl]; intros s1 s2 Hs; [exact Hs|].
    simpl. apply IHl. simpl. rewrite Hs. reflexivity. }
  intros st Hok Hall. split; [apply Hrt; assumption|].
  intros Hnone T. simpl. rewrite (Hrt items st Hok Hall).
  destruct (ticks_nothing_pending items st Hnone) as [-> ->].
  simpl. rewrite app_nil_r. reflexivity.
Qed.

Lemma silent_items_fire_nothing_witness :
  rt (run_items [(1, EventsRecv SampleLoop.removed); (2, EventsRecv SampleMore.elsewhere)]
        SampleLoop.st_tpl)
    = rt (ticks [(1, EventsRecv SampleLoop.removed); (2, EventsRecv SampleMore.elsewhere)]
            SampleLoop.st_tpl)
  /\ (pending (rt SampleLoop.st_tpl) = [] ->
      forall T,
        fired (rt (advance T
                     (run_items [(1, EventsRecv SampleLoop.removed);
                                 (2, EventsRecv SampleMore.elsewhere)]
                        SampleLoop.st_tpl)))
          = fired (rt SampleLoop.st_tpl)).
Proof.
  apply (silent_items_fire_nothing SampleLoop.timers_tpl [Dir "/a/tpl" (FUser 7)]).
  - exact loop_ok_tpl.
  - constructor; [left; reflexivity|].
    constructor; [|constructor].
    right. split; [discriminate | repeat constructor].
Defined.

(** ** Bursts that are apart *)

Lemma filter_idem {A} (f : A -> bool) (l : list A) :
  List.filter f (List.filter f l) = List.filter f l.
Proof.
  induction l as [|x l IH]; simpl; [reflexivity|].
  destruct (f x) eqn:Hf; simpl; rewrite ?Hf, IH; reflexivity.
Qed.

Lemma filter_none {A} (f : A -> bool) (l : list A) :
  List.filter f (List.filter (fun x => negb (f x)) l) = [].
Proof.
  induction l as [|x l IH]; simpl; [reflexivity|].
  destruct (f x) eqn:Hf; simpl; rewrite ?Hf, IH; reflexivity.
Qed.

Lemma advance_idem (T : Z) (st : state) : advance T (advance T st) = advance T st.
Proof.
  unfold advance, with_rt, advance_rt. simpl. f_equal. f_equal.
  - lia.
  - apply filter_idem.
  - rewrite <- app_assoc. f_equal. rewrite filter_none. apply app_nil_r.
Qed.

Lemma deliver_advance (T : Z) (it : item) (st : state) :
  deliver (advance T st) (T, it) = deliver st (T, it).
Proof. unfold deliver. simpl. rewrite advance_idem. reflexivity. Qed.

Lemma close_together_last (l : list Z) :
  forall t : Z, close_together t l -> t <= List.last l t.
Proof.
  induction l as [|t' l IH]; intros t H; simpl in H.
  - simpl. lia.
  - destruct H as [Hgap H]. specialize (IH t' H).
    rewrite last_cons. lia.
Qed.

(** Events only: the goroutine stays in its loop and the clock is at the
    last of them. *)
Lemma events_keep_running (timers : gmap string nat) (additional : list dir)
    (rest : list (Z * Event)) :
  forall (st : state) (t1 : Z) (e1 : Event),
  loop_ok timers additional st ->
  status st = Some Running ->
  now (rt st) <= t1 ->
  close_together t1 (map fst rest) ->
  status (run_items (events_at ((t1, e1) :: rest)) st) = Some Running
  /\ now (rt (run_items (events_at ((t1, e1) :: rest)) st))
     = List.last (map fst rest) t1.
Proof.
  induction rest as [|[t2 e2] rest IH]; intros st t1 e1 Hok Hrun Hnow Hclose.
  - unfold run_items, events_at. simpl. unfold deliver. simpl.
    rewrite (goroutine_step_running timers additional);
      [|apply loop_ok_advance; exact Hok | exact Hrun].
    simpl. split; [exact Hrun|].
    destruct (resets_frame (event_ids (binSelf st) timers additional e1)
                (advance_rt t1 (rt st))) as (-> & _). simpl. lia.
  - simpl in Hclose. destruct Hclose as [Hgap Hclose].
    change (run_items (events_at ((t1, e1) :: (t2, e2) :: rest)) st)
      with (run_items (events_at ((t2, e2) :: rest))
              (deliver st (t1, EventsRecv e1))).
    change (map fst ((t2, e2) :: rest)) with (t2 :: map fst rest).
    rewrite last_cons.
    destruct (deliver_frame _ _ _ (t1, EventsRecv e1) Hok) as (Hok1 & _).
    apply IH; try assumption.
    + unfold deliver. simpl.
      rewrite (goroutine_step_running timers additional);
        [|apply loop_ok_advance; exact Hok | exact Hrun].
      exact Hrun.
    + unfold deliver. simpl.
      rewrite (goroutine_step_running timers additional);
        [|apply loop_ok_advance; exact Hok | exact Hrun].
      simpl.
      destruct (resets_frame (event_ids (binSelf st) timers additional e1)
                  (advance_rt t1 (rt st))) as (-> & _). simpl. lia.
Qed.

(** Two bursts on one timer, the second beginning more than 100 ms after
    the last event of the first: two entries are recorded for it. *)
Lemma two_bursts_run (timers : gmap string nat)
    (additional : list dir) (p : string) (t : nat) (st : state)
    (t1 : Z) (e1 : Event) (rest1 : list (Z * Event))
    (t2 : Z) (e2 : Event) (rest2 : list (Z * Event)) (T : Z) :
  loop_ok timers additional st ->
  status st = Some Running ->
  List.NoDup (map fst (pending (rt st))) ->
  timers !! p = Some t ->
  Forall (on_path (binSelf st) additional p)
    (e1 :: map snd rest1 ++ e2 :: map snd rest2) ->
  now (rt st) <= t1 -> 0 <= t1 ->
  close_together t1 (map fst rest1) ->
  (forall d, In (t, d) (pending (rt st)) -> t1 < d) ->
  List.last (map fst rest1) t1 + delay < t2 ->
  close_together t2 (map fst rest2) ->
  List.last (map fst rest2) t2 + delay <= MaxInt64 ->
  List.last (map fst rest2) t2 + delay <= T ->
  fires t (advance T (run_items (events_at (((t1, e1) :: rest1) ++ (t2, e2) :: rest2)) st))
    = fires t st ++ [List.last (map fst rest1) t1 + delay;
                     List.last (map fst rest2) t2 + delay].
Proof.
  intros Hok Hrun Hnd Ht Hon Hnow H0 Hclose1 Hlater Hgap Hclose2 Hmax HT.
  set (a := List.last (map fst rest1) t1) in *.
  set (b := List.last (map fst rest2) t2) in *.
  assert (Hdelay : 0 < delay) by reflexivity.
  pose proof (close_together_last _ _ Hclose1) as Ha. fold a in Ha.
  pose proof (close_together_last _ _ Hclose2) as Hb. fold b in Hb.
  assert (Hon1 : Forall (on_path (binSelf st) additional p) (e1 :: map snd rest1)).
  { change (e1 :: map snd rest1 ++ e2 :: map snd rest2)
      with ((e1 :: map snd rest1) ++ e2 :: map snd rest2) in Hon.
    apply Forall_app in Hon. tauto. }
  assert (Hon2 : Forall (on_path (binSelf st) additional p) (e2 :: map snd rest2)).
  { change (e1 :: map snd rest1 ++ e2 :: map snd rest2)
      with ((e1 :: map snd rest1) ++ e2 :: map snd rest2) in Hon.
    apply Forall_app in Hon. tauto. }
  set (s1 := run_items (events_at ((t1, e1) :: rest1)) st).
  assert (Hsplit : run_items (events_at (((t1, e1) :: rest1) ++ (t2, e2) :: rest2)) st
                   = run_items (events_at ((t2, e2) :: rest2)) (advance t2 s1)).
  { unfold events_at, run_items. rewrite map_app, fold_left_app. fold (events_at ((t1, e1) :: rest1)).
    fold (run_items (events_at ((t1, e1) :: rest1)) st). fold s1.
    simpl. rewrite deliver_advance. reflexivity. }
  rewrite Hsplit.
  destruct (burst_run timers additional p t rest1 st t1 e1) as [Hp1 Hf1];
    try assumption; [fold a; lia|]. fold s1 in Hp1, Hf1. fold a in Hp1.
  destruct (run_items_frame timers additional (events_at ((t1, e1) :: rest1)) st Hok)
    as (Hok1 & Hb1 & _). fold s1 in Hok1, Hb1.
  destruct (events_keep_running timers additional rest1 st t1 e1 Hok Hrun Hnow Hclose1)
    as [Hrun1 Hnow1]. fold s1 in Hrun1, Hnow1. fold a in Hnow1.
  pose proof (run_items_NoDup timers additional (events_at ((t1, e1) :: rest1)) st Hok Hnd)
    as Hnd1. fold s1 in Hnd1.
  destruct (advance_due t2 (rt s1) t (a + delay) Hp1) as [Hf2 Hp2]; [lia|].
  destruct (burst_run timers additional p t rest2 (advance t2 s1) t2 e2) as [Hp3 Hf3].
  - apply loop_ok_advance, Hok1.
  - exact Hrun1.
  - apply advance_NoDup, Hnd1.
  - exact Ht.
  - change (binSelf (advance t2 s1)) with (binSelf s1). rewrite Hb1. exact Hon2.
  - simpl. lia.
  - lia.
  - exact Hclose2.
  - exact Hmax.
  - intros d Hd.
    assert (Hd' : In (t, d) (of_timer t (pending (rt (advance t2 s1))))).
    { apply of_timer_In. tauto. }
    change (rt (advance t2 s1)) with (advance_rt t2 (rt s1)) in Hd'.
    rewrite Hp2 in Hd'. destruct Hd'.
  - fold b in Hp3. unfold fires.
    change (rt (advance T ?s)) with (advance_rt T (rt s)).
    destruct (advance_due T _ t (b + delay) Hp3 HT) as [-> _].
    rewrite Hf3. change (rt (advance t2 s1)) with (advance_rt t2 (rt s1)).
    rewrite Hf2, Hf1, !map_app, <- app_assoc. reflexivity.
Qed.

Lemma not_matched (self_ : string) (timers : gmap string nat)
    (additional : list dir) (event : Event) (t : nat) :
  Name event <> self_ ->
  (forall a, In a additional -> timers !! path a <> Some t) ->
  ~ In t (event_ids self_ timers additional event).
Proof.
  intros Hne Hadd. unfold event_ids.
  destruct (trigger event); [|simpl; tauto].
  intros Hin. apply list_elem_of_In, list_elem_of_omap in Hin as [k [Hk Ht]].
  apply list_elem_of_In in Hk. unfold matched_keys in Hk.
  apply in_app_or in Hk as [Hk|Hk].
  - destruct (String.eqb_spec (Name event) self_) as [Heq|_]; [tauto | destruct Hk].
  - apply in_map_iff in Hk as [a [<- Ha]]. apply List.filter_In in Ha as [Ha _].
    exact (Hadd a Ha Ht).
Qed.

(** A timer that no event of a run reaches and that is not pending is not
    pending afterwards, and has not run. *)
Lemma untouched_events (timers : gmap string nat) (additional : list dir)
    (t : nat) (burst : list (Z * Event)) :
  forall st : state,
  loop_ok timers additional st ->
  status st = Some Running ->
  Forall (fun te => ~ In t (event_ids (binSelf st) timers additional (snd te))) burst ->
  of_timer t (pending (rt st)) = [] ->
  of_timer t (pending (rt (run_items (events_at burst) st))) = []
  /\ of_timer t (fired (rt (run_items (events_at burst) st)))
     = of_timer t (fired (rt st)).
Proof.
  induction burst as [|[T e] burst IH]; intros st Hok Hrun Hall Hnone; [auto|].
  inversion Hall as [|x l He Hrest]; subst. simpl in He.
  change (run_items (events_at ((T, e) :: burst)) st)
    with (run_items (events_at burst) (deliver st (T, EventsRecv e))).
  assert (Hstep : deliver st (T, EventsRecv e)
                  = with_rt (resets (event_ids (binSelf st) timers additional e)
                               (advance_rt T (rt st))) (advance T st)).
  { unfold deliver. simpl.
    rewrite (goroutine_step_running timers additional);
      [reflexivity | apply loop_ok_advance; exact Hok | exact Hrun]. }
  destruct (advance_not_due T (rt st) t) as [Hf Hp].
  { intros d Hd. exfalso.
    assert (Hin : In (t, d) (of_timer t (pending (rt st)))) by (apply of_timer_In; auto).
    rewrite Hnone in Hin. destruct Hin. }
  destruct (deliver_frame _ _ _ (T, EventsRecv e) Hok) as (Hok1 & Hb1 & _).
  destruct (IH (deliver st (T, EventsRecv e))) as [IH1 IH2].
  - exact Hok1.
  - rewrite Hstep. exact Hrun.
  - rewrite Hb1. exact Hrest.
  - rewrite Hstep. simpl. rewrite resets_other by exact He. rewrite Hp. exact Hnone.
  - rewrite IH1, IH2. split; [reflexivity|].
    rewrite Hstep. simpl.
    destruct (resets_frame (event_ids (binSelf st) timers additional e)
                (advance_rt T (rt st))) as (_ & _ & ->).
    exact Hf.
Qed.

(** X13.  Two bursts of events in one watched directory, none of them on
    the executable, the second beginning more than 100 ms after the last
    event of the first: the directory's callback runs twice, once 100 ms
    after the end of each burst, and no timer of [Exec] runs meanwhile,
    provided none was pending and no directory's key leads to one. *)
Theorem separate_bursts_fire_separately (timers : gmap string nat)
    (additional : list dir) (p : string) (t : nat) (st : state)
    (t1 : Z) (e1 : Event) (rest1 : list (Z * Event))
    (t2 : Z) (e2 : Event) (rest2 : list (Z * Event)) (T : Z) :
  loop_ok timers additional st ->
  status st = Some Running ->
  List.NoDup (map fst (pending (rt st))) ->
  timers !! p = Some t ->
  Forall (on_path (binSelf st) additional p)
    (e1 :: map snd rest1 ++ e2 :: map snd rest2) ->
  Forall (fun e => Name e <> binSelf st)
    (e1 :: map snd rest1 ++ e2 :: map snd rest2) ->
  (forall t', nth_error (timer_f (rt st)) t' = Some FExec ->
     of_timer t' (pending (rt st)) = []
     /\ forall a, In a additional -> timers !! path a <> Some t') ->
  now (rt st) <= t1 -> 0 <= t1 ->
  close_together t1 (map fst rest1) ->
  (forall d, In (t, d) (pending (rt st)) -> t1 < d) ->
  List.last (map fst rest1) t1 + delay < t2 ->
  close_together t2 (map fst rest2) ->
  List.last (map fst rest2) t2 + delay <= MaxInt64 ->
  List.last (map fst rest2) t2 + delay <= T ->
  fires t (advance T (run_items (events_at (((t1, e1) :: rest1) ++ (t2, e2) :: rest2)) st))
    = fires t st ++ [List.last (map fst rest1) t1 + delay;
                     List.last (map fst rest2) t2 + delay]
  /\ nth_error (timer_f (rt st)) t <> Some FExec
  /\ forall t', nth_error (timer_f (rt st)) t' = Some FExec ->
       fires t' (advance T (run_items
                              (events_at (((t1, e1) :: rest1) ++ (t2, e2) :: rest2)) st))
         = fires t' st.
Proof.
  intros Hok Hrun Hnd Ht Hon Hnames Hexec Hnow H0 Hclose1 Hlater Hgap Hclose2 Hmax HT.
  split; [|split].
  - apply (two_bursts_run timers additional p); assumption.
  - intros Hfexec. destruct (Hexec t Hfexec) as [_ Hkeys].
    apply Forall_inv in Hon. apply Forall_inv in Hnames.
    destruct Hon as [_ [[_ Hname] | [Hex _]]]; [tauto|].
    apply List.Exists_exists in Hex as [a [Ha Hp]].
    apply (Hkeys a Ha). rewrite Hp. exact Ht.
  - intros t' Hfexec. destruct (Hexec t' Hfexec) as [Hnone Hkeys].
    set (L := ((t1, e1) :: rest1) ++ (t2, e2) :: rest2).
    assert (HL : Forall (fun te => ~ In t' (event_ids (binSelf st) timers additional
                                              (snd te))) L).
    { assert (Hmap : e1 :: map snd rest1 ++ e2 :: map snd rest2 = map snd L).
      { unfold L. rewrite map_app. reflexivity. }
      rewrite Hmap in Hnames. rewrite List.Forall_forall in *.
      intros te Hte. apply not_matched; [|exact Hkeys].
      apply Hnames, in_map, Hte. }
    destruct (untouched_events timers additional t' L st Hok Hrun HL Hnone)
      as [Hp Hf].
    unfold fires.
    change (rt (advance T ?s)) with (advance_rt T (rt s)).
    destruct (advance_not_due T (rt (run_items (events_at L) st)) t') as [-> _].
    + intros d Hd. exfalso.
      assert (Hin : In (t', d) (of_timer t' (pending (rt (run_items (events_at L) st)))))
        by (apply of_timer_In; auto).
      rewrite Hp in Hin. destruct Hin.
    + rewrite Hf. reflexivity.
Qed.

Lemma separate_bursts_fire_separately_witness :
  fires 1 (advance (1000 * Millisecond)
             (run_items (events_at ([(0, SampleMore.in_tpl)]
                                      ++ [(500 * Millisecond, SampleMore.in_tpl)]))
                SampleLoop.st_tpl))
    = fires 1 SampleLoop.st_tpl ++ [0 + delay; 500 * Millisecond + delay]
  /\ nth_error (timer_f (rt SampleLoop.st_tpl)) 1 <> Some FExec
  /\ forall t', nth_error (timer_f (rt SampleLoop.st_tpl)) t' = Some FExec ->
       fires t' (advance (1000 * Millisecond)
                   (run_items (events_at ([(0, SampleMore.in_tpl)]
                                            ++ [(500 * Millisecond, SampleMore.in_tpl)]))
                      SampleLoop.st_tpl))
         = fires t' SampleLoop.st_tpl.
Proof.
  apply (separate_bursts_fire_separately SampleLoop.timers_tpl
           [Dir "/a/tpl" (FUser 7)] "/a/tpl" 1%nat SampleLoop.st_tpl
           0 SampleMore.in_tpl [] (500 * Millisecond) SampleMore.in_tpl []
           (1000 * Millisecond)).
  - exact loop_ok_tpl.
  - reflexivity.
  - vm_compute. constructor.
  - vm_compute. reflexivity.
  - assert (Hon : on_path (binSelf SampleLoop.st_tpl) [Dir "/a/tpl" (FUser 7)]
                    "/a/tpl" SampleMore.in_tpl).
    { split; [reflexivity|]. right. split; [|reflexivity].
      apply Exists_cons_hd. reflexivity. }
    repeat constructor; exact Hon.
  - repeat constructor; discriminate.
  - intros [|[|t']] Hf; try discriminate Hf.
    + split; [reflexivity|]. intros a [<-|[]]. vm_compute. discriminate.
    + exfalso. vm_compute in Hf. destruct t'; discriminate Hf.
  - vm_compute. discriminate.
  - lia.
  - exact I.
  - intros d H. vm_compute in H. destruct H.
  - vm_compute. reflexivity.
  - exact I.
  - vm_compute. discriminate.
  - vm_compute. discriminate.
Defined.

(** ** More on [Do] *)

Lemma stoppedTimer_exact (f : func) (st : state) :
  stoppedTimer f st
    = (Ret (length (timer_f (rt st))), with_rt (stopped_rt (rt st) f) st).
Proof. reflexivity. Qed.

Lemma made_frame (fs : list func) :
  forall r : runtime,
  timer_f (made fs r) = timer_f r ++ fs
  /\ now (made fs r) = now r /\ fired (made fs r) = fired r.
Proof.
  unfold made. induction fs as [|f fs IH]; intros r; simpl.
  - rewrite app_nil_r. auto.
  - destruct (IH (stopped_rt r f)) as (H1 & H2 & H3).
    rewrite H1, H2, H3. simpl. rewrite <- app_assoc. auto.
Qed.

Lemma stopped_rt_quiet (r : runtime) (f : func) : quiet r (stopped_rt r f).
Proof.
  repeat split; simpl.
  - apply unschedule_fresh. intros Hin.
    apply in_map_iff in Hin as [e [He Hin]].
    unfold rt_wf in H. rewrite List.Forall_forall in H.
    specialize (H e Hin). lia.
  - unfold rt_wf in *. simpl. rewrite unschedule_fresh.
    + eapply Forall_impl; [exact H|]. simpl. intros e He.
      rewrite length_app. simpl. lia.
    + intros Hin. apply in_map_iff in Hin as [e [He Hin]].
      rewrite List.Forall_forall in H. specialize (H e Hin). lia.
Qed.

Lemma made_quiet (fs : list func) : forall r : runtime, quiet r (made fs r).
Proof.
  unfold made. induction fs as [|f fs IH]; intros r; simpl.
  - apply quiet_refl.
  - eapply quiet_trans; [apply stopped_rt_quiet | apply IH].
Qed.

Lemma absolute_paths (additional : list dir) (ps : list string) :
  length additional = length ps -> map path (absolute additional ps) = ps.
Proof.
  revert ps. induction additional as [|a l IH]; intros [|p ps] Hlen;
    simpl in *; try discriminate; [reflexivity|].
  unfold absolute in IH. rewrite IH by lia. reflexivity.
Qed.

Lemma Forall2_length_eq {A B} (R : A -> B -> Prop) (l : list A) (l' : list B) :
  List.Forall2 R l l' -> length l = length l'.
Proof. induction 1; simpl; congruence. Qed.

(** The loop over [additional] when every entry can be watched. *)
Lemma range_setup_ok (w : world) (additional : list dir) (ps : list string) :
  List.Forall2 (watchable w) additional ps ->
  forall (timers : gmap string nat) (st : state),
  range_setup w additional timers st
    = (Ret (Ok (absolute additional ps,
                register (length (timer_f (rt st))) (absolute additional ps) timers)),
       with_rt (made (map cb additional) (rt st)) st).
Proof.
  induction 1 as [|a p l ps' [Habs (s & Hstat & Hdir)] Hrest IH]; intros timers st.
  - simpl. unfold ret, made. simpl. rewrite with_rt_id. reflexivity.
  - simpl. rewrite Habs, Hstat, Hdir. simpl.
    rewrite (bind_run _ _ _ _ _ (stoppedTimer_exact (cb a) st)).
    rewrite (bind_run _ _ _ _ _ (IH _ _)). simpl.
    rewrite length_app. simpl. rewrite Nat.add_1_r. reflexivity.
Qed.

(** The loop over [additional] when an entry cannot be watched and those
    before it can. *)
Lemma range_setup_first_bad (w : world) (pre : list dir) (ps : list string)
    (a : dir) (post : list dir) :
  List.Forall2 (watchable w) pre ps ->
  (~ exists q, watchable w a q) ->
  forall (timers : gmap string nat) (st : state),
  exists err,
    ConfigurationError w a err
    /\ range_setup w (pre ++ a :: post) timers st
       = (Ret (Err err), with_rt (made (map cb pre) (rt st)) st).
Proof.
  intros Hpre Hbad.
  induction Hpre as [|x p l ps' [Habs (s & Hstat & Hdir)] Hrest IH]; intros timers st.
  - simpl. unfold made. simpl. rewrite with_rt_id.
    destruct (filepath_Abs w (path a)) as [q|err] eqn:Habs.
    2:{ eexists. split; [constructor; exact Habs | reflexivity]. }
    destruct (os_Stat w q) as [s|err] eqn:Hstat.
    2:{ eexists. split; [econstructor; eassumption | reflexivity]. }
    destruct (IsDir s) eqn:Hdir.
    { exfalso. apply Hbad. exists q. split; eauto. }
    eexists. split; [econstructor; eassumption | reflexivity].
  - simpl. rewrite Habs, Hstat, Hdir. simpl.
    rewrite (bind_run _ _ _ _ _ (stoppedTimer_exact (cb x) st)).
    destruct (IH (<[p := length (timer_f (rt st))]> timers)
                (with_rt (stopped_rt (rt st) (cb x)) st)) as [err [Herr Hrun]].
    exists err. split; [exact Herr|].
    rewrite (bind_run _ _ _ _ _ Hrun). reflexivity.
Qed.

Lemma range_Add_ok (w : world) (dirs : list string) (st : state) :
  Forall (fun d => watcher_Add w d = None) dirs ->
  range_Add w dirs st
    = (Ret None, with_trace (trace st ++ map (fun d => EWatcherAdd d None) dirs) st).
Proof.
  intros Hall.
  destruct (range_Add_spec w dirs st) as [[_ H] | (ds & d & rest & err & -> & _ & Herr & _)];
    [exact H|].
  exfalso. rewrite List.Forall_forall in Hall.
  rewrite (Hall d) in Herr; [discriminate|]. apply in_or_app. right. left. reflexivity.
Qed.

Lemma self_at (w : world) (st st' : state) (r : string * option error) :
  fst (self w st) = Ret r -> self w st' = (Ret r, st').
Proof. intros H. apply self_run. rewrite <- (self_indep w st st'). exact H. Qed.

(** [Do] when everything succeeds. *)
Lemma Do_success_run (w : world) (additional : list dir) (st : state)
    (b : string) (ps : list string) :
  fsnotify_NewWatcher w = None ->
  fst (self w st) = Ret (b, None) ->
  List.Forall2 (watchable w) additional ps ->
  Forall (fun d => watcher_Add w d = None) (filepath_Dir w b :: ps) ->
  Do w additional st = (Blocked, watching_state w b additional ps st).
Proof.
  intros Hnw Hself Hw Hadd.
  pose proof (Forall2_length_eq _ _ _ Hw) as Hlen.
  unfold Do.
  erewrite bind_run by reflexivity. rewrite Hnw.
  erewrite bind_run by reflexivity.
  rewrite (bind_run _ _ _ _ _ (self_at w st _ _ Hself)).
  erewrite bind_run by reflexivity. cbn [fst snd].
  rewrite (bind_run _ _ _ _ _ (stoppedTimer_exact FExec _)).
  erewrite bind_run by reflexivity.
  rewrite (bind_run _ _ _ _ _ (range_setup_ok w additional ps Hw _ _)).
  erewrite bind_run by reflexivity.
  erewrite bind_run by reflexivity.
  rewrite absolute_paths by exact Hlen.
  rewrite (bind_run _ _ _ _ _ (range_Add_ok w _ _ Hadd)).
  erewrite bind_run by reflexivity.
  erewrite bind_run by reflexivity.
  unfold Do_wait, bind, recv_done, watching_state, startup_line. simpl.
  assert (Hl : length (absolute additional ps) = length ps).
  { rewrite <- (absolute_paths additional ps Hlen) at 2. rewrite length_map. reflexivity. }
  rewrite Hl, length_app. simpl. rewrite Nat.add_1_r.
  rewrite <- !app_assoc. reflexivity.
Qed.

Lemma watchable_sample_tpl : List.Forall2 (watchable Sample.w) [Sample.tpl] ["/app/tpl"%string].
Proof.
  repeat constructor. exists {| IsDir := true |}. split; reflexivity.
Defined.

Lemma adds_sample_tpl :
  Forall (fun d => watcher_Add Sample.w d = None)
    (filepath_Dir Sample.w "/app/server" :: ["/app/tpl"%string]).
Proof. repeat constructor. Defined.

(** X14.  When the watcher can be made, the executable is found, every
    additional directory can be watched and every [Add] succeeds, [Do]
    blocks, having cached the executable's path and the watcher's [Close],
    started the goroutine, added the directory of the executable and then
    each additional directory by its absolute path, once each and in the
    order given, and logged one line. *)
Theorem Do_watches_in_order (w : world) (additional : list dir) (st : state)
    (b : string) (ps : list string) :
  fsnotify_NewWatcher w = None ->
  fst (self w st) = Ret (b, None) ->
  List.Forall2 (watchable w) additional ps ->
  Forall (fun d => watcher_Add w d = None) (filepath_Dir w b :: ps) ->
  fst (Do w additional st) = Blocked
  /\ trace (snd (Do w additional st))
     = trace st ++ [ENewWatcher; EGo]
         ++ map (fun d => EWatcherAdd d None) (filepath_Dir w b :: ps)
         ++ [startup_line w b ps]
  /\ binSelf (snd (Do w additional st)) = b
  /\ closeWatcher (snd (Do w additional st)) = Some WatcherClose
  /\ OnExec (snd (Do w additional st)) = OnExec st
  /\ status (snd (Do w additional st)) = Some Running.
Proof.
  intros Hnw Hself Hw Hadd.
  rewrite (Do_success_run w additional st b ps Hnw Hself Hw Hadd).
  repeat split.
Qed.

Lemma Do_watches_in_order_witness :
  fst (Do Sample.w [Sample.tpl] initial_state) = Blocked
  /\ trace (snd (Do Sample.w [Sample.tpl] initial_state))
     = trace initial_state ++ [ENewWatcher; EGo]
         ++ map (fun d => EWatcherAdd d None)
              (filepath_Dir Sample.w "/app/server" :: ["/app/tpl"%string])
         ++ [startup_line Sample.w "/app/server" ["/app/tpl"%string]]
  /\ binSelf (snd (Do Sample.w [Sample.tpl] initial_state)) = "/app/server"%string
  /\ closeWatcher (snd (Do Sample.w [Sample.tpl] initial_state)) = Some WatcherClose
  /\ OnExec (snd (Do Sample.w [Sample.tpl] initial_state)) = OnExec initial_state
  /\ status (snd (Do Sample.w [Sample.tpl] initial_state)) = Some Running.
Proof.
  apply (Do_watches_in_order Sample.w [Sample.tpl] initial_state "/app/server"
           ["/app/tpl"%string]).
  - reflexivity.
  - reflexivity.
  - exact watchable_sample_tpl.
  - exact adds_sample_tpl.
Defined.

Lemma register_notin (l : list dir) (k : string) :
  forall (n : nat) (m : gmap string nat),
  ~ In k (map path l) -> register n l m !! k = m !! k.
Proof.
  induction l as [|a l IH]; intros n m Hnotin; simpl; [reflexivity|].
  simpl in Hnotin. rewrite IH by tauto.
  apply lookup_insert_ne. tauto.
Qed.

Lemma register_app (l1 l2 : list dir) :
  forall (n : nat) (m : gmap string nat),
  register n (l1 ++ l2) m = register (n + length l1) l2 (register n l1 m).
Proof.
  induction l1 as [|a l1 IH]; intros n m; simpl.
  - rewrite Nat.add_0_r. reflexivity.
  - rewrite IH. f_equal. lia.
Qed.

Lemma register_in (l : list dir) (k : string) :
  forall (n : nat) (m : gmap string nat),
  In k (map path l) ->
  exists i, (i < length l)%nat /\ register n l m !! k = Some (n + i)%nat.
Proof.
  induction l as [|a l IH]; intros n m Hin; simpl in *; [tauto|].
  destruct (in_dec String.string_dec k (map path l)) as [Hl|Hl].
  - destruct (IH (S n) (<[path a := n]> m) Hl) as [i [Hi Hlook]].
    exists (S i). split; [lia|]. rewrite Hlook. f_equal. lia.
  - destruct Hin as [->|Hin]; [|tauto].
    exists O. split; [lia|].
    rewrite register_notin by exact Hl.
    rewrite lookup_insert_eq. f_equal. lia.
Qed.

Lemma absolute_app (l1 l2 : list dir) (ps1 ps2 : list string) :
  length l1 = length ps1 ->
  absolute (l1 ++ l2) (ps1 ++ ps2) = absolute l1 ps1 ++ absolute l2 ps2.
Proof.
  revert ps1. unfold absolute.
  induction l1 as [|a l1 IH]; intros [|p ps1] Hlen; simpl in *; try discriminate.
  - reflexivity.
  - rewrite IH by lia. reflexivity.
Qed.

Lemma absolute_length (l : list dir) (ps : list string) :
  length l = length ps -> length (absolute l ps) = length l.
Proof.
  intros Hlen. unfold absolute. rewrite length_map, length_combine. lia.
Qed.

(** X15.  When several entries of [additional] name one directory, the map
    keeps the timer of the last of them: events in that directory run the
    last entry's callback, and no event reaches the timers of the
    earlier ones. *)
Theorem Do_last_entry_of_a_directory_wins (w : world) (st : state) (b : string)
    (l1 : list dir) (a : dir) (l2 : list dir)
    (ps1 : list string) (q : string) (ps2 : list string) :
  fsnotify_NewWatcher w = None ->
  fst (self w st) = Ret (b, None) ->
  List.Forall2 (watchable w) (l1 ++ a :: l2) (ps1 ++ q :: ps2) ->
  Forall (fun d => watcher_Add w d = None) (filepath_Dir w b :: ps1 ++ q :: ps2) ->
  length l1 = length ps1 ->
  ~ In q ps2 ->
  exists timers additional' t,
    closure (snd (Do w (l1 ++ a :: l2) st)) = Some (timers, additional')
    /\ timers !! q = Some t
    /\ nth_error (timer_f (rt (snd (Do w (l1 ++ a :: l2) st)))) t = Some (cb a).
Proof.
  intros Hnw Hself Hw Hadd Hlen Hq.
  rewrite (Do_success_run w _ st b _ Hnw Hself Hw Hadd).
  pose proof (Forall2_length_eq _ _ _ Hw) as Hlen'.
  rewrite !length_app in Hlen'. simpl in Hlen'.
  eexists _, _, (S (length (timer_f (rt st))) + length l1)%nat.
  split; [reflexivity|]. split.
  - change (q :: ps2) with ([q] ++ ps2). change (a :: l2) with ([a] ++ l2).
    rewrite absolute_app by exact Hlen.
    rewrite register_app, absolute_length by exact Hlen.
    rewrite absolute_app by reflexivity.
    simpl. rewrite register_notin.
    + apply lookup_insert_eq.
    + rewrite absolute_paths by lia. exact Hq.
  - unfold watching_state. cbn [snd rt].
    destruct (made_frame (FExec :: map cb (l1 ++ a :: l2)) (rt st)) as (-> & _).
    rewrite nth_error_app2 by lia.
    replace (S (length (timer_f (rt st))) + length l1 - length (timer_f (rt st)))%nat
      with (S (length l1)) by lia.
    simpl. rewrite map_app. rewrite nth_error_app2 by (rewrite length_map; lia).
    rewrite length_map, Nat.sub_diag. reflexivity.
Qed.

Lemma watchable_sample_twice :
  List.Forall2 (watchable Sample.w) ([Dir "tpl" (FUser 7)] ++ Dir "/app/tpl" (FUser 9) :: [])
    (["/app/tpl"%string] ++ "/app/tpl"%string :: []).
Proof.
  repeat constructor; exists {| IsDir := true |}; split; reflexivity.
Defined.

Lemma Do_last_entry_of_a_directory_wins_witness :
  exists timers additional' t,
    closure (snd (Do Sample.w ([Dir "tpl" (FUser 7)] ++ Dir "/app/tpl" (FUser 9) :: [])
                    initial_state)) = Some (timers, additional')
    /\ timers !! "/app/tpl"%string = Some t
    /\ nth_error (timer_f (rt (snd (Do Sample.w
                                     ([Dir "tpl" (FUser 7)] ++ Dir "/app/tpl" (FUser 9) :: [])
                                     initial_state)))) t
       = Some (cb (Dir "/app/tpl" (FUser 9))).
Proof.
  apply (Do_last_entry_of_a_directory_wins Sample.w initial_state "/app/server"
           [Dir "tpl" (FUser 7)] (Dir "/app/tpl" (FUser 9)) []
           ["/app/tpl"%string] "/app/tpl" []).
  - reflexivity.
  - reflexivity.
  - exact watchable_sample_twice.
  - repeat constructor.
  - reflexivity.
  - intros [].
Defined.


(** The map and the functions of the timers after a successful [Do], for
    the last entry with a given absolute path. *)
Lemma watching_last_entry (w : world) (st : state) (b : string)
    (l1 : list dir) (a : dir) (l2 : list dir)
    (ps1 : list string) (q : string) (ps2 : list string) :
  length l1 = length ps1 ->
  length l2 = length ps2 ->
  ~ In q ps2 ->
  let W := watching_state w b (l1 ++ a :: l2) (ps1 ++ q :: ps2) st in
  let n0 := length (timer_f (rt st)) in
  closure W = Some (register (S n0) (absolute (l1 ++ a :: l2) (ps1 ++ q :: ps2))
                      (<[b := n0]> ∅),
                    absolute (l1 ++ a :: l2) (ps1 ++ q :: ps2))
  /\ register (S n0) (absolute (l1 ++ a :: l2) (ps1 ++ q :: ps2)) (<[b := n0]> ∅) !! q
     = Some (S n0 + length l1)%nat
  /\ nth_error (timer_f (rt W)) (S n0 + length l1) = Some (cb a)
  /\ nth_error (timer_f (rt W)) n0 = Some FExec
  /\ In (Dir q (cb a)) (absolute (l1 ++ a :: l2) (ps1 ++ q :: ps2)).
Proof.
  intros Hlen1 Hlen2 Hq W n0. split; [reflexivity|].
  assert (Habs : absolute (l1 ++ a :: l2) (ps1 ++ q :: ps2)
                 = absolute l1 ps1 ++ Dir q (cb a) :: absolute l2 ps2).
  { rewrite absolute_app by exact Hlen1. reflexivity. }
  split; [|split; [|split]].
  - rewrite Habs, register_app, absolute_length by exact Hlen1.
    simpl. rewrite register_notin.
    + apply lookup_insert_eq.
    + rewrite absolute_paths by exact Hlen2. exact Hq.
  - unfold W, watching_state. cbn [rt].
    destruct (made_frame (FExec :: map cb (l1 ++ a :: l2)) (rt st)) as (-> & _).
    rewrite nth_error_app2 by (unfold n0; lia).
    replace (S n0 + length l1 - length (timer_f (rt st)))%nat
      with (S (length l1)) by (unfold n0; lia).
    simpl. rewrite map_app. rewrite nth_error_app2 by (rewrite length_map; lia).
    rewrite length_map, Nat.sub_diag. reflexivity.
  - unfold W, watching_state. cbn [rt].
    destruct (made_frame (FExec :: map cb (l1 ++ a :: l2)) (rt st)) as (-> & _).
    rewrite nth_error_app2 by (unfold n0; lia).
    unfold n0. rewrite Nat.sub_diag. reflexivity.
  - rewrite Habs. apply in_or_app. right. left. reflexivity.
Qed.

Lemma watching_state_ok (w : world) (b : string) (additional : list dir)
    (ps : list string) (st : state) :
  length additional = length ps ->
  loop_ok (register (S (length (timer_f (rt st)))) (absolute additional ps)
             (<[b := length (timer_f (rt st))]> ∅))
    (absolute additional ps) (watching_state w b additional ps st).
Proof.
  intros Hlen. split.
  - reflexivity.
  - simpl.
    destruct (in_dec String.string_dec b (map path (absolute additional ps)))
      as [Hin|Hnotin].
    + destruct (register_in _ b (S (length (timer_f (rt st))))
                  (<[b := length (timer_f (rt st))]> ∅) Hin) as [i [_ Hi]].
      rewrite Hi. eauto.
    + rewrite register_notin by exact Hnotin. rewrite lookup_insert_eq. eauto.
  - apply List.Forall_forall. intros a' Ha'.
    destruct (register_in (absolute additional ps) (path a')
                (S (length (timer_f (rt st))))
                (<[b := length (timer_f (rt st))]> ∅)) as [i [_ Hi]].
    + apply in_map, Ha'.
    + rewrite Hi. eauto.
  - left. reflexivity.
Qed.




(** X17.  [Do] arms no timer: when it blocks, what is pending, what has
    run and the clock are as before the call, so that with nothing
    pending before, nothing runs until an event arrives. *)
Theorem Do_arms_no_timer (w : world) (additional : list dir) (st : state) :
  fst (Do w additional st) = Blocked ->
  rt_wf (rt st) ->
  pending (rt (snd (Do w additional st))) = pending (rt st)
  /\ fired (rt (snd (Do w additional st))) = fired (rt st)
  /\ now (rt (snd (Do w additional st))) = now (rt st)
  /\ (pending (rt st) = [] ->
      forall T, fired (rt (advance T (snd (Do w additional st)))) = fired (rt st)).
Proof.
  pose proof (Do_cases w additional st) as Hcase.
  destruct (Do w additional st) as [o st1]. cbn [fst snd] in *. intros -> Hwf.
  inversion Hcase as [| | | | |b ad' ts st2 Hnw Hself Hall Hadds Hok Hrun Hb Hdone Hq];
    subst.
  destruct Hq as (Hnow & Hfired & Hq). destruct (Hq Hwf) as [Hp _].
  repeat split; try assumption.
  intros Hnone T. change (fired (advance_rt T (rt st1)) = fired (rt st)).
  unfold advance_rt. cbn [fired]. rewrite Hp, Hnone, Hfired. apply app_nil_r.
Qed.

Lemma Do_arms_no_timer_witness :
  pending (rt (snd (Do Sample.w [Sample.tpl] initial_state))) = pending (rt initial_state)
  /\ fired (rt (snd (Do Sample.w [Sample.tpl] initial_state))) = fired (rt initial_state)
  /\ now (rt (snd (Do Sample.w [Sample.tpl] initial_state))) = now (rt initial_state)
  /\ (pending (rt initial_state) = [] ->
      forall T, fired (rt (advance T (snd (Do Sample.w [Sample.tpl] initial_state))))
                = fired (rt initial_state)).
Proof.
  apply (Do_arms_no_timer Sample.w [Sample.tpl] initial_state).
  - vm_compute. reflexivity.
  - constructor.
Defined.

(** X18.  The error [Do] returns for [additional] is that of the first
    entry that cannot be watched; the timers made for the entries before
    it, and for the executable, exist and no goroutine was started. *)
Theorem Do_first_bad_directory (w : world) (st : state) (b : string)
    (pre : list dir) (ps : list string) (a : dir) (post : list dir) :
  fsnotify_NewWatcher w = None ->
  fst (self w st) = Ret (b, None) ->
  List.Forall2 (watchable w) pre ps ->
  (~ exists q, watchable w a q) ->
  exists err,
    ConfigurationError w a err
    /\ fst (Do w (pre ++ a :: post) st) = Ret (Some err)
    /\ timer_f (rt (snd (Do w (pre ++ a :: post) st)))
       = timer_f (rt st) ++ FExec :: map cb pre
    /\ loop (snd (Do w (pre ++ a :: post) st)) = loop st.
Proof.
  intros Hnw Hself Hpre Hbad.
  unfold Do.
  erewrite bind_run by reflexivity. rewrite Hnw.
  erewrite bind_run by reflexivity.
  rewrite (bind_run _ _ _ _ _ (self_at w st _ _ Hself)).
  erewrite bind_run by reflexivity. cbn [fst snd].
  rewrite (bind_run _ _ _ _ _ (stoppedTimer_exact FExec _)).
  erewrite bind_run by reflexivity.
  match goal with
  | |- context [bind (range_setup w _ ?ts) _ ?s] =>
      destruct (range_setup_first_bad w pre ps a post Hpre Hbad ts s)
        as [err [Herr Hrun]]
  end.
  exists err. split; [exact Herr|].
  rewrite (bind_run _ _ _ _ _ Hrun). cbn [fst snd]. split; [reflexivity|].
  split; [|reflexivity].
  unfold ret. cbn [snd rt with_rt].
  change (rt (with_binSelf b (with_closeWatcher (Some WatcherClose)
                (with_trace (trace st ++ [ENewWatcher]) st)))) with (rt st).
  destruct (made_frame (map cb pre) (stopped_rt (rt st) FExec)) as (-> & _).
  simpl. rewrite <- app_assoc. reflexivity.
Qed.

Lemma Do_first_bad_directory_witness :
  exists err,
    ConfigurationError Sample.w (Dir "/app/server" (FUser 8)) err
    /\ fst (Do Sample.w ([Dir "tpl" (FUser 7)] ++ Dir "/app/server" (FUser 8)
                           :: [Sample.missing]) initial_state) = Ret (Some err)
    /\ timer_f (rt (snd (Do Sample.w ([Dir "tpl" (FUser 7)]
                                        ++ Dir "/app/server" (FUser 8)
                                        :: [Sample.missing]) initial_state)))
       = timer_f (rt initial_state) ++ FExec :: map cb [Dir "tpl" (FUser 7)]
    /\ loop (snd (Do Sample.w ([Dir "tpl" (FUser 7)] ++ Dir "/app/server" (FUser 8)
                                 :: [Sample.missing]) initial_state))
       = loop initial_state.
Proof.
  apply (Do_first_bad_directory Sample.w initial_state "/app/server"
           [Dir "tpl" (FUser 7)] ["/app/tpl"%string]).
  - reflexivity.
  - reflexivity.
  - exact watchable_sample_tpl.
  - intros [q [Habs (s & Hstat & Hdir)]].
    injection Habs as <-. injection Hstat as <-. discriminate Hdir.
Defined.

Lemma self_error_empty (w : world) (st : state) (s : string) (err : error) :
  fst (self w st) = Ret (s, Some err) -> s = EmptyString.
Proof.
  unfold self. destruct (os_Args w) as [|bin args]; [discriminate|].
  destruct (filepath_IsAbs w bin); simpl; [discriminate|].
  destruct (os_Executable w); simpl; intros [= <- _]; reflexivity || discriminate.
Qed.

(** X19.  When the executable cannot be found, [Do] returns the error of
    [self] as it is, and has by then stored the watcher's [Close] and
    overwritten [binSelf] with the empty string: a path cached by an
    earlier call is gone.  No timer was made and no goroutine started. *)
Theorem Do_self_failure_clears_the_cache (w : world) (additional : list dir)
    (st : state) (s : string) (err : error) :
  fsnotify_NewWatcher w = None ->
  fst (self w st) = Ret (s, Some err) ->
  fst (Do w additional st) = Ret (Some err)
  /\ binSelf (snd (Do w additional st)) = EmptyString
  /\ closeWatcher (snd (Do w additional st)) = Some WatcherClose
  /\ rt (snd (Do w additional st)) = rt st
  /\ loop (snd (Do w additional st)) = loop st
  /\ trace (snd (Do w additional st)) = trace st ++ [ENewWatcher].
Proof.
  intros Hnw Hself.
  pose proof (self_error_empty w st s err Hself) as ->.
  unfold Do.
  erewrite bind_run by reflexivity. rewrite Hnw.
  erewrite bind_run by reflexivity.
  rewrite (bind_run _ _ _ _ _ (self_at w st _ _ Hself)).
  erewrite bind_run by reflexivity. cbn [fst snd].
  repeat split.
Qed.

Lemma Do_self_failure_clears_the_cache_witness :
  fst (Do SampleExec.lost [] SampleMore.cached)
    = Ret (Some (Errorf "cannot get path to binary %q (launch with absolute path): %w"
                   [ArgString "server";
                    ArgError (ErrExternal "readlink /proc/self/exe: no such file")]))
  /\ binSelf (snd (Do SampleExec.lost [] SampleMore.cached)) = EmptyString
  /\ closeWatcher (snd (Do SampleExec.lost [] SampleMore.cached)) = Some WatcherClose
  /\ rt (snd (Do SampleExec.lost [] SampleMore.cached)) = rt SampleMore.cached
  /\ loop (snd (Do SampleExec.lost [] SampleMore.cached)) = loop SampleMore.cached
  /\ trace (snd (Do SampleExec.lost [] SampleMore.cached))
     = trace SampleMore.cached ++ [ENewWatcher].
Proof.
  apply (Do_self_failure_clears_the_cache SampleExec.lost [] SampleMore.cached
           EmptyString).
  - reflexivity.
  - reflexivity.
Defined.

Lemma self_ok_args (w : world) (st : state) (r : string * option error) :
  fst (self w st) = Ret r -> exists a0 rest, os_Args w = a0 :: rest.
Proof.
  unfold self. destruct (os_Args w) as [|bin args]; [discriminate | eauto].
Qed.

(** X20.  [Exec] after [Do]: the watcher [Do] made is closed, the hook
    runs if there is one, and the image started is the path [Do] cached,
    which is also the new [argv[0]], whatever [os.Args[0]] was. *)
Theorem Exec_after_Do (w : world) (additional : list dir) (st : state)
    (b : string) (ps : list string) :
  fsnotify_NewWatcher w = None ->
  fst (self w st) = Ret (b, None) ->
  List.Forall2 (watchable w) additional ps ->
  Forall (fun d => watcher_Add w d = None) (filepath_Dir w b :: ps) ->
  b <> EmptyString ->
  trace (snd (Exec w (snd (Do w additional st))))
    = trace (snd (Do w additional st))
        ++ [EWatcherClose (watcher_Close w)] ++ hook_step st
        ++ [ESyscallExec b (b :: tail (os_Args w)) (os_Environ w)].
Proof.
  intros Hnw Hself Hw Hadd Hne.
  destruct (self_ok_args w st _ Hself) as (a0 & rest & Hargs).
  rewrite (Do_success_run w additional st b ps Hnw Hself Hw Hadd). cbn [snd].
  assert (Hname : exec_name w (watching_state w b additional ps st) b).
  { apply (exec_name_cached w (watching_state w b additional ps st)). exact Hne. }
  rewrite (Exec_run w _ b a0 rest Hname Hargs), Hargs.
  destruct (syscall_Exec w b (b :: rest) (os_Environ w)); reflexivity.
Qed.

Lemma Exec_after_Do_witness :
  trace (snd (Exec Sample.w (snd (Do Sample.w [Sample.tpl] initial_state))))
    = trace (snd (Do Sample.w [Sample.tpl] initial_state))
        ++ [EWatcherClose (watcher_Close Sample.w)] ++ hook_step initial_state
        ++ [ESyscallExec "/app/server" ("/app/server"%string :: tail (os_Args Sample.w))
              (os_Environ Sample.w)].
Proof.
  apply (Exec_after_Do Sample.w [Sample.tpl] initial_state "/app/server"
           ["/app/tpl"%string]).
  - reflexivity.
  - reflexivity.
  - exact watchable_sample_tpl.
  - exact adds_sample_tpl.
  - discriminate.
Defined.

(** ** [stoppedTimer] *)

(** X21.  The timer [stoppedTimer(cb)] returns holds [cb] and is not
    armed: what is pending is what was, and as the clock advances exactly
    that runs which would have run without the new timer. *)
Theorem stoppedTimer_is_stopped (f : func) (st : state) :
  rt_wf (rt st) ->
  fst (stoppedTimer f st) = Ret (length (timer_f (rt st)))
  /\ nth_error (timer_f (rt (snd (stoppedTimer f st)))) (length (timer_f (rt st)))
     = Some f
  /\ pending (rt (snd (stoppedTimer f st))) = pending (rt st)
  /\ forall T, fired (rt (advance T (snd (stoppedTimer f st))))
               = fired (rt (advance T st)).
Proof.
  intros Hwf. rewrite stoppedTimer_exact. cbn [fst snd].
  destruct (stopped_rt_quiet (rt st) f) as (_ & _ & Hq).
  destruct (Hq Hwf) as [Hp _].
  split; [reflexivity|]. split; [|split].
  - simpl. rewrite nth_error_app2 by lia. rewrite Nat.sub_diag. reflexivity.
  - exact Hp.
  - intros T. change (rt (advance T ?s)) with (advance_rt T (rt s)).
    unfold advance_rt. cbn [fired]. cbn [rt with_rt]. rewrite Hp. reflexivity.
Qed.

Lemma stoppedTimer_is_stopped_witness :
  fst (stoppedTimer (FUser 5) SampleLoop.st_app_created)
    = Ret (length (timer_f (rt SampleLoop.st_app_created)))
  /\ nth_error (timer_f (rt (snd (stoppedTimer (FUser 5) SampleLoop.st_app_created))))
       (length (timer_f (rt SampleLoop.st_app_created))) = Some (FUser 5)
  /\ pending (rt (snd (stoppedTimer (FUser 5) SampleLoop.st_app_created)))
     = pending (rt SampleLoop.st_app_created)
  /\ forall T, fired (rt (advance T (snd (stoppedTimer (FUser 5)
                                            SampleLoop.st_app_created))))
               = fired (rt (advance T SampleLoop.st_app_created)).
Proof.
  apply (stoppedTimer_is_stopped (FUser 5) SampleLoop.st_app_created).
  vm_compute. repeat constructor.
Defined.

(** ** The executable and a directory that both match, after [Do] *)

(** C9, as the code has it.  In a process that [Do] has set up, with no
    additional directory at the executable's own path, take a write or
    create event whose name is the executable's and also begins with the
    absolute path of an additional directory.  The comparison with
    [binSelf] is made first and resets the timer whose function is [Exec];
    the loop over the directories still runs and resets the directory's
    timer, whose function is the callback of the last entry with that
    path.  The two timers are distinct and both are pending for 100 ms
    from now. *)
Theorem self_checked_first_and_both_armed (w : world) (st : state) (b : string)
    (l1 : list dir) (a : dir) (l2 : list dir)
    (ps1 : list string) (q : string) (ps2 : list string)
    (items : list (Z * item)) (event : Event) :
  fsnotify_NewWatcher w = None ->
  fst (self w st) = Ret (b, None) ->
  List.Forall2 (watchable w) (l1 ++ a :: l2) (ps1 ++ q :: ps2) ->
  Forall (fun d => watcher_Add w d = None) (filepath_Dir w b :: ps1 ++ q :: ps2) ->
  length l1 = length ps1 ->
  ~ In q ps2 ->
  ~ In b (ps1 ++ q :: ps2) ->
  let st1 := run_items items (snd (Do w (l1 ++ a :: l2) st)) in
  status st1 = Some Running ->
  trigger event = true ->
  Name event = b ->
  HasPrefix (Name event) q = true ->
  exists tself ta ids,
    nth_error (timer_f (rt st1)) tself = Some FExec
    /\ nth_error (timer_f (rt st1)) ta = Some (cb a)
    /\ tself <> ta
    /\ goroutine_step (EventsRecv event) st1
       = with_rt (resets (tself :: ids) (rt st1)) st1
    /\ In ta ids
    /\ In (tself, when (now (rt st1)) delay)
         (pending (rt (goroutine_step (EventsRecv event) st1)))
    /\ In (ta, when (now (rt st1)) delay)
         (pending (rt (goroutine_step (EventsRecv event) st1))).
Proof.
  intros Hnw Hself Hw Hadd Hlen1 Hq Hb st1 Hrun Htr Hname Hpre.
  unfold st1 in *. clear st1.
  rewrite (Do_success_run w _ st b _ Hnw Hself Hw Hadd) in *. cbn [snd] in *.
  pose proof (Forall2_length_eq _ _ _ Hw) as Hlen.
  assert (Hlen2 : length l2 = length ps2).
  { rewrite !length_app in Hlen. simpl in Hlen. lia. }
  destruct (watching_last_entry w st b l1 a l2 ps1 q ps2 Hlen1 Hlen2 Hq)
    as (_ & Hlook & Hcb & Hexec & Hin).
  pose proof (watching_state_ok w b (l1 ++ a :: l2) (ps1 ++ q :: ps2) st Hlen) as Hok.
  set (n0 := length (timer_f (rt st))) in *.
  set (timers := register (S n0) (absolute (l1 ++ a :: l2) (ps1 ++ q :: ps2))
                   (<[b := n0]> ∅)) in *.
  set (W := watching_state w b (l1 ++ a :: l2) (ps1 ++ q :: ps2) st) in *.
  set (ad := absolute (l1 ++ a :: l2) (ps1 ++ q :: ps2)) in *.
  destruct (run_items_frame timers ad items W Hok) as (Hok1 & Hb1 & _ & Hf1).
  assert (Hself_timer : timers !! binSelf (run_items items W) = Some n0).
  { rewrite Hb1. change (binSelf W) with b. unfold timers.
    rewrite register_notin.
    - apply lookup_insert_eq.
    - unfold ad. rewrite absolute_paths by exact Hlen. exact Hb. }
  destruct (matched_both_reset timers ad (run_items items W) (Dir q (cb a))
              n0 (S n0 + length l1)%nat event) as (ids & Hstep & Hids & Hp1 & Hp2);
    try assumption.
  { rewrite Hb1. exact Hname. }
  exists n0, (S n0 + length l1)%nat, ids.
  rewrite Hf1. repeat split; try assumption. lia.
Qed.

Lemma watchable_sample_app :
  List.Forall2 (watchable Sample.w) ([] ++ Dir "/app" (FUser 7) :: [])
    ([] ++ "/app"%string :: []).
Proof.
  repeat constructor. exists {| IsDir := true |}. split; reflexivity.
Defined.

Lemma self_checked_first_and_both_armed_witness :
  exists tself ta ids,
    nth_error (timer_f (rt (run_items []
                              (snd (Do Sample.w ([] ++ Dir "/app" (FUser 7) :: [])
                                      initial_state))))) tself = Some FExec
    /\ nth_error (timer_f (rt (run_items []
                                 (snd (Do Sample.w ([] ++ Dir "/app" (FUser 7) :: [])
                                         initial_state))))) ta
       = Some (cb (Dir "/app" (FUser 7)))
    /\ tself <> ta
    /\ goroutine_step (EventsRecv SampleLoop.created)
         (run_items [] (snd (Do Sample.w ([] ++ Dir "/app" (FUser 7) :: [])
                               initial_state)))
       = with_rt (resets (tself :: ids)
                    (rt (run_items []
                           (snd (Do Sample.w ([] ++ Dir "/app" (FUser 7) :: [])
                                   initial_state)))))
           (run_items [] (snd (Do Sample.w ([] ++ Dir "/app" (FUser 7) :: [])
                                 initial_state)))
    /\ In ta ids
    /\ In (tself,
           when (now (rt (run_items []
                            (snd (Do Sample.w ([] ++ Dir "/app" (FUser 7) :: [])
                                    initial_state))))) delay)
         (pending (rt (goroutine_step (EventsRecv SampleLoop.created)
                         (run_items []
                            (snd (Do Sample.w ([] ++ Dir "/app" (FUser 7) :: [])
                                    initial_state))))))
    /\ In (ta,
           when (now (rt (run_items []
                            (snd (Do Sample.w ([] ++ Dir "/app" (FUser 7) :: [])
                                    initial_state))))) delay)
         (pending (rt (goroutine_step (EventsRecv SampleLoop.created)
                         (run_items []
                            (snd (Do Sample.w ([] ++ Dir "/app" (FUser 7) :: [])
                                    initial_state)))))).
Proof.
  apply (self_checked_first_and_both_armed Sample.w initial_state "/app/server"
           [] (Dir "/app" (FUser 7)) [] [] "/app" [] [] SampleLoop.created).
  - reflexivity.
  - reflexivity.
  - exact watchable_sample_app.
  - repeat constructor.
  - reflexivity.
  - intros [].
  - intros [H|[]]. discriminate H.
  - vm_compute. reflexivity.
  - reflexivity.
  - reflexivity.
  - reflexivity.
Defined.
